(** * mermaidgen.ts: the architecture-diagram generator

    A shallow embedding of [src/mermaidgen.ts] and the properties of its
    extraction, synthesis and rendering stages.

    JavaScript strings are sequences of UTF-16 code units, and every string
    operation of the script (regular expressions without the [u] flag,
    [includes], [split], [trim], template literals) works on code units.
    They are modelled as lists of [N]. *)

From Stdlib Require Import List NArith Bool String Ascii Lia Arith.
From Stdlib Require Import Permutation.
Import ListNotations.

Set Implicit Arguments.

(** ** JavaScript strings *)

Definition codeunit := N.
Definition jsstring := list codeunit.

(** An ASCII literal of the source as a JavaScript string. *)
Definition js (s : string) : jsstring :=
  map N_of_ascii (list_ascii_of_string s).

Arguments js : simpl never.

(** The escapes of the source's literals that a Rocq literal cannot hold. *)
Definition LF : jsstring := [10%N].
Definition DQUOTE : jsstring := [34%N].
Definition BACKTICK : codeunit := 96%N.
Definition BACKSLASH : codeunit := 92%N.
Definition SLASH : codeunit := 47%N.
Definition COMMA : codeunit := 44%N.

Fixpoint str_eqb (a b : jsstring) : bool :=
  match a, b with
  | [], [] => true
  | x :: a', y :: b' => N.eqb x y && str_eqb a' b'
  | _, _ => false
  end.

(** [s.startsWith(needle)] *)
Fixpoint startsWith (needle s : jsstring) : bool :=
  match needle, s with
  | [], _ => true
  | x :: needle', y :: s' => N.eqb x y && startsWith needle' s'
  | _ :: _, [] => false
  end.

(** [s.includes(needle)] *)
Fixpoint includes (needle s : jsstring) : bool :=
  startsWith needle s ||
  match s with
  | [] => false
  | _ :: s' => includes needle s'
  end.

(** [s.split(sep)] for a separator of one code unit (the script splits on
    [','] and ['/'] only).  The result is never empty: the empty string
    splits into one empty piece. *)
Fixpoint split (sep : codeunit) (s : jsstring) : list jsstring :=
  match s with
  | [] => [[]]
  | c :: s' =>
      if N.eqb c sep then [] :: split sep s'
      else match split sep s' with
           | [] => [[c]]
           | w :: ws => (c :: w) :: ws
           end
  end.

(** [l.join(sep)] *)
Fixpoint join (sep : jsstring) (l : list jsstring) : jsstring :=
  match l with
  | [] => []
  | [x] => x
  | x :: l' => x ++ sep ++ join sep l'
  end.

(** The class [\w] of a pattern without the [u] and [i] flags:
    [A-Za-z0-9_]. *)
Definition is_word (c : codeunit) : bool :=
  ((65 <=? c) && (c <=? 90) || (97 <=? c) && (c <=? 122) ||
   (48 <=? c) && (c <=? 57) || (c =? 95))%N.

(** The class [\s], which is also what [trim] removes: ECMAScript's
    WhiteSpace and LineTerminator code points. *)
Definition is_space (c : codeunit) : bool :=
  ((9 <=? c) && (c <=? 13) || (c =? 32) || (c =? 160) || (c =? 5760) ||
   (8192 <=? c) && (c <=? 8202) || (c =? 8232) || (c =? 8233) ||
   (c =? 8239) || (c =? 8287) || (c =? 12288) || (c =? 65279))%N.

Fixpoint dropWhile (p : codeunit -> bool) (s : jsstring) : jsstring :=
  match s with
  | [] => []
  | c :: s' => if p c then dropWhile p s' else s
  end.

(** [s.trim()] *)
Definition trim (s : jsstring) : jsstring :=
  rev (dropWhile is_space (rev (dropWhile is_space s))).

(** ** Regular expressions

    The patterns of the script use literals, character classes, greedy
    repetition of a character class, optional groups, alternation, one
    capture group and the end anchor.  [matchk] is the backtracking matcher
    of ECMAScript restricted to these constructs: alternatives are tried
    left to right, repetition is greedy, and the first success wins. *)

Inductive regex : Type :=
| Eps
| Chr (c : codeunit)
| Class (p : codeunit -> bool)
| Seq (r1 r2 : regex)
| Alt (r1 r2 : regex)
| Many (p : codeunit -> bool)
| Group (r : regex)
| EndOfInput.

Fixpoint Lit (s : jsstring) : regex :=
  match s with
  | [] => Eps
  | c :: s' => Seq (Chr c) (Lit s')
  end.

Definition Opt (r : regex) : regex := Alt r Eps.
Definition Many1 (p : codeunit -> bool) : regex := Seq (Class p) (Many p).

Section Matcher.
Variable R : Type.

(** Greedy [p*]: the longest run first, then shorter ones. *)
Fixpoint many (p : codeunit -> bool) (s : jsstring)
         (k : jsstring -> option R) : option R :=
  match s with
  | [] => k []
  | c :: s' =>
      if p c
      then match many p s' k with
           | Some x => Some x
           | None => k s
           end
      else k s
  end.

(** [matchk r s cap k]: match [r] at the front of [s]; [cap] is the
    capture so far, [k] receives the rest of the input and the capture. *)
Fixpoint matchk (r : regex) (s : jsstring) (cap : option jsstring)
         (k : jsstring -> option jsstring -> option R) : option R :=
  match r with
  | Eps => k s cap
  | Chr c =>
      match s with
      | c' :: s' => if N.eqb c' c then k s' cap else None
      | [] => None
      end
  | Class p =>
      match s with
      | c' :: s' => if p c' then k s' cap else None
      | [] => None
      end
  | Seq r1 r2 => matchk r1 s cap (fun s1 cap1 => matchk r2 s1 cap1 k)
  | Alt r1 r2 =>
      match matchk r1 s cap k with
      | Some x => Some x
      | None => matchk r2 s cap k
      end
  | Many p => many p s (fun s' => k s' cap)
  | Group r1 =>
      matchk r1 s cap
        (fun s1 _ => k s1 (Some (firstn (List.length s - List.length s1) s)))
  | EndOfInput =>
      match s with
      | [] => k [] cap
      | _ :: _ => None
      end
  end.
End Matcher.

(** The result of [RegExp.prototype.exec]: the text before the match, the
    capture group ([m[1]], [None] when the group took no part) and the
    text after the match. *)
Record rmatch : Type := {
  m_pre : jsstring;
  m_group : option jsstring;
  m_rest : jsstring
}.

Definition accept (s : jsstring) (cap : option jsstring)
  : option (jsstring * option jsstring) := Some (s, cap).

(** [s.match(r)] for a pattern without the [g] flag: the leftmost position
    at which the pattern matches. *)
Fixpoint exec (r : regex) (s : jsstring) : option rmatch :=
  match matchk r s None accept with
  | Some (s', cap) => Some {| m_pre := []; m_group := cap; m_rest := s' |}
  | None =>
      match s with
      | [] => None
      | c :: t =>
          match exec r t with
          | Some m => Some {| m_pre := c :: m_pre m; m_group := m_group m;
                              m_rest := m_rest m |}
          | None => None
          end
      end
  end.

(** [m[1]] converted to a string. *)
Definition group1 (m : rmatch) : jsstring :=
  match m_group m with
  | Some c => c
  | None => js "undefined"
  end.

(** [s.matchAll(r)] for a pattern with the [g] flag, as the list of the
    [m[1]] of the successive matches.  [skip] is the distance to
    [lastIndex]: after a match of length [n] the search resumes [n] code
    units further, and one further after an empty match. *)
Fixpoint matchAll_from (r : regex) (skip : nat) (s : jsstring)
  : list jsstring :=
  match skip, s with
  | S n, [] => []
  | S n, _ :: t => matchAll_from r n t
  | O, _ =>
      match matchk r s None accept with
      | Some (s', cap) =>
          group1 {| m_pre := []; m_group := cap; m_rest := s' |} ::
          match s with
          | [] => []
          | _ :: t => matchAll_from r (List.length s - List.length s' - 1) t
          end
      | None =>
          match s with
          | [] => []
          | _ :: t => matchAll_from r 0 t
          end
      end
  end.

Definition matchAll (r : regex) (s : jsstring) : list jsstring :=
  matchAll_from r 0 s.

(** [s.replace(r, repl)] for a pattern without the [g] flag. *)
Definition replace (r : regex) (repl s : jsstring) : jsstring :=
  match exec r s with
  | Some m => m_pre m ++ repl ++ m_rest m
  | None => s
  end.

(** [s.replace(/c/g, d)] for a pattern of one literal code unit. *)
Definition replaceAllChar (c d : codeunit) (s : jsstring) : jsstring :=
  map (fun x => if N.eqb x c then d else x) s.

(** ** The data model (lines 14-27) *)

Inductive CompType : Type :=
| ClientPage | Controller | Service | Gateway | Database | User.

Inductive Subgraph : Type :=
| SgClient | SgServer | SgDatabase | SgUser.

Record Component : Type := {
  id : jsstring;
  type : CompType;
  label : jsstring;
  filePath : jsstring;
  subgraph : Subgraph
}.

(** [isAsync?: boolean]: [None] is the absent field. *)
Record Interaction : Type := {
  from : jsstring;
  to : jsstring;
  ilabel : jsstring;
  isAsync : option bool
}.

Definition CompType_eqb (a b : CompType) : bool :=
  match a, b with
  | ClientPage, ClientPage | Controller, Controller | Service, Service
  | Gateway, Gateway | Database, Database | User, User => true
  | _, _ => false
  end.

Definition Subgraph_eqb (a b : Subgraph) : bool :=
  match a, b with
  | SgClient, SgClient | SgServer, SgServer
  | SgDatabase, SgDatabase | SgUser, SgUser => true
  | _, _ => false
  end.

(** The string a subgraph value is in the source. *)
Definition subgraphName (g : Subgraph) : jsstring :=
  match g with
  | SgClient => js "Client"
  | SgServer => js "Server"
  | SgDatabase => js "Database"
  | SgUser => js "User"
  end.

(** ** [Map<string, Component>]

    A JavaScript [Map] iterates in insertion order, and [set] on a key that
    is present replaces the value where it stands.  The renderer's output
    depends on that order, so the map is an association list. *)

Definition CompMap := list (jsstring * Component).

Fixpoint map_get (k : jsstring) (m : CompMap) : option Component :=
  match m with
  | [] => None
  | (k', v) :: m' => if str_eqb k' k then Some v else map_get k m'
  end.

Definition map_has (k : jsstring) (m : CompMap) : bool :=
  match map_get k m with
  | Some _ => true
  | None => false
  end.

Fixpoint map_set (k : jsstring) (v : Component) (m : CompMap) : CompMap :=
  match m with
  | [] => [(k, v)]
  | (k', v') :: m' =>
      if str_eqb k' k then (k, v) :: m' else (k', v') :: map_set k v m'
  end.

Definition map_keys (m : CompMap) : list jsstring := map fst m.
Definition map_values (m : CompMap) : list Component := map snd m.

(** ** The patterns of the script *)

Definition APOSTROPHE : codeunit := 39%N.
Definition RPAREN : codeunit := 41%N.
Definition COLON : codeunit := 58%N.

Definition isnot (c : codeunit) : codeunit -> bool :=
  fun x => negb (N.eqb x c).

(** The pattern [/@Controller\('(G)'\)/] whose group [G] is [[^']*]. *)
Definition controllerRe : regex :=
  Seq (Lit (js "@Controller('"))
      (Seq (Group (Many (isnot APOSTROPHE))) (Lit (js "')"))).

(** The pattern [/@Injectable\(\)/]. *)
Definition injectableRe : regex := Lit (js "@Injectable()").

(** The pattern [/@WebSocketGateway\(\)/]. *)
Definition gatewayRe : regex := Lit (js "@WebSocketGateway()").

(** The pattern [/export class (\w+)/]. *)
Definition classNameRe : regex :=
  Seq (Lit (js "export class ")) (Group (Many1 is_word)).

(** The pattern [/constructor\((G)\)/] whose group [G] is [[^)]*]. *)
Definition constructorRe : regex :=
  Seq (Lit (js "constructor("))
      (Seq (Group (Many (isnot RPAREN))) (Chr RPAREN)).

(** The pattern
    [/(?:private|public|protected)?\s*(?:readonly)?\s*\w+\s*:\s*(\w+)/],
    cut after the colon: [depHead] up to it, [depTail] after it. *)
Definition depHead : regex :=
  Seq (Opt (Alt (Lit (js "private"))
                (Alt (Lit (js "public")) (Lit (js "protected")))))
      (Seq (Many is_space)
           (Seq (Opt (Lit (js "readonly")))
                (Seq (Many is_space)
                     (Seq (Many1 is_word)
                          (Seq (Many is_space) (Chr COLON)))))).

Definition depTail : regex :=
  Seq (Many is_space) (Group (Many1 is_word)).

Definition depRe : regex := Seq depHead depTail.

(** The pattern [/fetch\(`\$\{apiUrl\}\/api\/(G)`/g] whose group [G] is
    [[^`]*]. *)
Definition fetchRe : regex :=
  Seq (Lit (js "fetch(" ++ [BACKTICK] ++ js "${apiUrl}/api/"))
      (Seq (Group (Many (isnot BACKTICK))) (Chr BACKTICK)).

(** The pattern [/\/page\.tsx$/]. *)
Definition pageRe : regex := Seq (Lit (js "/page.tsx")) EndOfInput.

(** The labels of the interactions the extractors create.  The script's
    literals are Spanish: [inyecta] (injects), [usa] (uses), [conecta a]
    (connects to); the renderer adds [navega a] (navigates to). *)
Definition label_inyecta : jsstring := js "inyecta".
Definition label_usa : jsstring := js "usa".
Definition label_conecta : jsstring := js "conecta a".

(** ** Extraction: the server profile (lines 66-101) *)

Definition controllerComponent (id filePath route : jsstring) : Component :=
  {| id := id; type := Controller;
     label := id ++ js "<br><small>" ++ route ++ js "</small>";
     filePath := filePath; subgraph := SgServer |}.

Definition serviceComponent (id filePath : jsstring) : Component :=
  {| id := id; type := Service; label := id;
     filePath := filePath; subgraph := SgServer |}.

Definition gatewayComponent (id filePath : jsstring) : Component :=
  {| id := id; type := Gateway;
     label := id ++ js "<br><small>WebSocket</small>";
     filePath := filePath; subgraph := SgServer |}.

Definition injectInteraction (id dependencyId : jsstring) : Interaction :=
  {| from := id; to := dependencyId; ilabel := label_inyecta;
     isAsync := None |}.

Definition prismaInteraction (id : jsstring) : Interaction :=
  {| from := id; to := js "PrismaService"; ilabel := label_usa;
     isAsync := None |}.

(** The body of the [for (const param of params)] loop, lines 88-94. *)
Definition pushDependency (id : jsstring) (interactions : list Interaction)
           (param : jsstring) : list Interaction :=
  match exec depRe param with
  | Some depMatch => interactions ++ [injectInteraction id (group1 depMatch)]
  | None => interactions
  end.

Definition analyzeServerFile (filePath content : jsstring)
           (components : CompMap) (interactions : list Interaction)
  : CompMap * list Interaction :=
  let controllerMatch := exec controllerRe content in
  let serviceMatch := exec injectableRe content in
  let gatewayMatch := exec gatewayRe content in
  let classNameMatch := exec classNameRe content in
  match classNameMatch with
  | None => (components, interactions)
  | Some cn =>
      let id := group1 cn in
      let components :=
        match controllerMatch, serviceMatch, gatewayMatch with
        | Some cm, _, _ =>
            let route := js "/api" ++ group1 cm in
            map_set id (controllerComponent id filePath route) components
        | None, Some _, _ =>
            map_set id (serviceComponent id filePath) components
        | None, None, Some _ =>
            map_set id (gatewayComponent id filePath) components
        | None, None, None => components
        end in
      let constructorMatch := exec constructorRe content in
      let interactions :=
        match constructorMatch with
        | Some km =>
            let params := map trim (split COMMA (group1 km)) in
            fold_left (pushDependency id) params interactions
        | None => interactions
        end in
      let interactions :=
        if includes (js "PrismaService") content
        then interactions ++ [prismaInteraction id]
        else interactions in
      (components, interactions)
  end.

(** ** Lookups (lines 221-237) *)

Fixpoint findFirst (p : Component -> bool) (l : list Component)
  : option Component :=
  match l with
  | [] => None
  | comp :: l' => if p comp then Some comp else findFirst p l'
  end.

Definition findControllerByRoute (route : jsstring) (components : CompMap)
  : option Component :=
  findFirst (fun comp => CompType_eqb (type comp) Controller &&
                         includes (js "/api/" ++ route) (label comp))
            (map_values components).

Definition findComponentByType (t : CompType) (components : CompMap)
  : option Component :=
  findFirst (fun comp => CompType_eqb (type comp) t) (map_values components).

(** ** Abnormal completion

    Neither the extractors nor the renderer can throw: they call total
    string and map operations only.  [addExternalComponents] can. *)

Inductive JsError : Type :=
| ReferenceError (name : jsstring).

Inductive completion (A : Type) : Type :=
| Normal (a : A)
| Throw (e : JsError).

Arguments Normal {A} a.
Arguments Throw {A} e.

(** ** Synthesis of the external actors (lines 129-137)

    The function has the single parameter [components].  Line 135 evaluates
    the name [interactions], which is a local constant of [main] (line 35):
    it is bound neither in this function nor at module level (the module's
    bindings are [fs], [path], [projectRoot], [serverDir], [clientDir],
    [outputFileName], [ignoreDirs], [ignoreFiles] and the functions).
    Evaluating it raises a ReferenceError before [push] is called and
    before its argument, the interaction labelled [consulta] (queries), is
    built; the two [set] calls before it have already changed the shared
    map.  (A type-checking run rejects the script for this line before it
    starts; the model is of the script as JavaScript runs it.) *)

Definition userComponent : Component :=
  {| id := js "User"; type := User;
     label := [55357; 56420]%N ++ js " Usuario";
     filePath := []; subgraph := SgUser |}.

Definition databaseComponent : Component :=
  {| id := js "Database"; type := Database;
     label := [55357; 56772; 65039]%N ++ js " Base de Datos";
     filePath := []; subgraph := SgDatabase |}.

Definition addExternalComponents (components : CompMap)
  : CompMap * completion unit :=
  let components := map_set (js "User") userComponent components in
  let components := map_set (js "Database") databaseComponent components in
  if map_has (js "PrismaService") components
  then (components, Throw (ReferenceError (js "interactions")))
  else (components, Normal tt).

(** ** Rendering (lines 141-198) *)

(** The object [subgraphs]: four arrays, created in the order User, Client,
    Server, Database, which is the order [for ... in] visits them in. *)
Record Buckets : Type := {
  bUser : list jsstring;
  bClient : list jsstring;
  bServer : list jsstring;
  bDatabase : list jsstring
}.

Definition emptyBuckets : Buckets :=
  {| bUser := []; bClient := []; bServer := []; bDatabase := [] |}.

Definition bucket (b : Buckets) (g : Subgraph) : list jsstring :=
  match g with
  | SgUser => bUser b
  | SgClient => bClient b
  | SgServer => bServer b
  | SgDatabase => bDatabase b
  end.

Definition push (g : Subgraph) (line : jsstring) (b : Buckets) : Buckets :=
  match g with
  | SgUser => {| bUser := bUser b ++ [line]; bClient := bClient b;
                 bServer := bServer b; bDatabase := bDatabase b |}
  | SgClient => {| bUser := bUser b; bClient := bClient b ++ [line];
                   bServer := bServer b; bDatabase := bDatabase b |}
  | SgServer => {| bUser := bUser b; bClient := bClient b;
                   bServer := bServer b ++ [line]; bDatabase := bDatabase b |}
  | SgDatabase => {| bUser := bUser b; bClient := bClient b;
                     bServer := bServer b; bDatabase := bDatabase b ++ [line] |}
  end.

Definition subgraphOrder : list Subgraph :=
  [SgUser; SgClient; SgServer; SgDatabase].

(** Line 153: the declaration of a component inside its subgraph. *)
Definition declLine (comp : Component) : jsstring :=
  js "    " ++ id comp ++ js "[" ++ DQUOTE ++ label comp ++ DQUOTE ++ js "]".

(** Lines 157-161. *)
Definition emitSubgraph (b : Buckets) (acc : jsstring) (g : Subgraph)
  : jsstring :=
  match bucket b g with
  | [] => acc
  | _ :: _ =>
      acc ++ (js "  subgraph " ++ subgraphName g ++ LF)
          ++ (join LF (bucket b g) ++ LF)
          ++ (js "  end" ++ LF)
  end.

(** [inter.isAsync ? '-.->' : '-->'] *)
Definition arrow (inter : Interaction) : jsstring :=
  match isAsync inter with
  | Some true => js "-.->"
  | _ => js "-->"
  end.

(** Line 172: the text of an edge. *)
Definition edgeLine (inter : Interaction) : jsstring :=
  js "  " ++ from inter ++ js " " ++ arrow inter ++ js "|" ++
  ilabel inter ++ js "| " ++ to inter ++ LF.

(** Lines 168-173: the body of [interactions.forEach]. *)
Definition emitInteraction (components : CompMap) (acc : jsstring)
           (inter : Interaction) : jsstring :=
  match map_get (from inter) components, map_get (to inter) components with
  | Some _, Some _ => acc ++ edgeLine inter
  | _, _ => acc
  end.

(** Line 179. *)
Definition navLine (comp : Component) : jsstring :=
  js "  User -->|navega a| " ++ id comp ++ LF.

(** Lines 178-180: the body of the second [components.forEach]. *)
Definition emitNavigation (acc : jsstring) (comp : Component) : jsstring :=
  if CompType_eqb (type comp) ClientPage then acc ++ navLine comp else acc.

(** The identifiers of one class-assignment line, lines 191-194. *)
Definition classMembers (components : CompMap) (g : Subgraph) : jsstring :=
  join (js ",")
       (map id (filter (fun c => Subgraph_eqb (subgraph c) g)
                       (map_values components))).

(** Lines 184-195: the template literal of the styles. *)
Definition styles (components : CompMap) : jsstring :=
  LF ++ js "  %% Estilos" ++ LF ++
  js "  classDef client fill:#233,stroke:#39c,stroke-width:2px,color:#fff" ++ LF ++
  js "  classDef server fill:#333,stroke:#f90,stroke-width:2px,color:#fff" ++ LF ++
  js "  classDef db fill:#444,stroke:#ccc,stroke-width:2px,color:#fff" ++ LF ++
  js "  classDef user fill:#111,stroke:#999,stroke-width:2px,color:#fff" ++ LF ++
  LF ++
  js "  class " ++ classMembers components SgClient ++ js " client" ++ LF ++
  js "  class " ++ classMembers components SgServer ++ js " server" ++ LF ++
  js "  class " ++ classMembers components SgDatabase ++ js " db" ++ LF ++
  js "  class " ++ classMembers components SgUser ++ js " user" ++ LF ++
  js "  ".

Definition generateMermaidCode (components : CompMap)
           (interactions : list Interaction) : jsstring :=
  let mermaidStr := js "graph TD" ++ LF in
  let subgraphs :=
    fold_left (fun b comp => push (subgraph comp) (declLine comp) b)
              (map_values components) emptyBuckets in
  let mermaidStr := fold_left (emitSubgraph subgraphs) subgraphOrder mermaidStr in
  let mermaidStr := mermaidStr ++ (LF ++ js "  %% Interacciones" ++ LF) in
  let mermaidStr := fold_left (emitInteraction components) interactions mermaidStr in
  let mermaidStr := fold_left emitNavigation (map_values components) mermaidStr in
  let mermaidStr := mermaidStr ++ styles components in
  mermaidStr.

(** ** Extraction: the client profile, and the driver

    [path.relative] is Node's, and [clientDir] is computed from
    [__dirname]: both are taken from the environment. *)

Section Environment.
Variable path_relative : jsstring -> jsstring -> jsstring.
Variable clientDir : jsstring.

(** Line 104. *)
Definition relativePathOf (filePath : jsstring) : jsstring :=
  replace pageRe []
    (replaceAllChar BACKSLASH SLASH (path_relative clientDir filePath)).

(** [relativePath || alt]: the empty string is falsy. *)
Definition orElse (s alt : jsstring) : jsstring :=
  match s with
  | [] => alt
  | _ :: _ => s
  end.

Definition pageId (relativePath : jsstring) : jsstring :=
  js "Page(" ++ orElse relativePath (js "/") ++ js ")".

Definition pageComponent (filePath relativePath : jsstring) : Component :=
  {| id := pageId relativePath; type := ClientPage;
     label := js "/" ++ orElse relativePath [];
     filePath := filePath; subgraph := SgClient |}.

(** Lines 112-118: the body of the loop over the fetch calls. *)
Definition pushFetch (page : jsstring) (components : CompMap)
           (interactions : list Interaction) (capture : jsstring)
  : list Interaction :=
  let endpoint := hd [] (split SLASH capture) in
  match findControllerByRoute endpoint components with
  | Some targetController =>
      interactions ++
      [{| from := page; to := id targetController;
          ilabel := js "GET /api/" ++ endpoint; isAsync := None |}]
  | None => interactions
  end.

Definition analyzeClientFile (filePath content : jsstring)
           (components : CompMap) (interactions : list Interaction)
  : CompMap * list Interaction :=
  let relativePath := relativePathOf filePath in
  let page := pageId relativePath in
  let components :=
    map_set page (pageComponent filePath relativePath) components in
  let fetchMatches := matchAll fetchRe content in
  let interactions :=
    fold_left (pushFetch page components) fetchMatches interactions in
  let interactions :=
    if includes (js "useSocket()") content
    then match findComponentByType Gateway components with
         | Some gateway =>
             interactions ++
             [{| from := page; to := id gateway;
                 ilabel := label_conecta; isAsync := Some true |}]
         | None => interactions
         end
    else interactions in
  (components, interactions).

(** A source file as the driver sees it: its path and the text
    [readFile] returns for it. *)
Definition SourceFile : Type := (jsstring * jsstring)%type.

Definition Model : Type := (CompMap * list Interaction)%type.

Definition serverStep (m : Model) (f : SourceFile) : Model :=
  analyzeServerFile (fst f) (snd f) (fst m) (snd m).

Definition clientStep (m : Model) (f : SourceFile) : Model :=
  analyzeClientFile (fst f) (snd f) (fst m) (snd m).

(** Line 58. *)
Definition markdownContent (mermaidCode : jsstring) : jsstring :=
  js "# Diagrama de Arquitectura del Proyecto" ++ LF ++ LF ++
  js "```mermaid" ++ LF ++ mermaidCode ++ LF ++ js "```".

(** [main] (lines 31-62) on the files the traversal found: the text it
    writes, or the error its promise is rejected with. *)
Definition main (serverFiles clientFiles : list SourceFile)
  : completion jsstring :=
  let m := fold_left serverStep serverFiles ([], []) in
  let m := fold_left clientStep clientFiles m in
  match addExternalComponents (fst m) with
  | (components, Throw e) => Throw e
  | (components, Normal _) =>
      let mermaidCode := generateMermaidCode components (snd m) in
      Normal (markdownContent mermaidCode)
  end.
End Environment.

(** ** The traversal (lines 10-11 and 203-219)

    The file system is read through [readdir] only: a directory is the
    list of its entries, in the order [readdir] returns them, and an entry
    is a directory ([isDirectory()] holds) or anything else, with its name.
    The directories are taken to be readable; a failing [readdir] rejects
    [main] and is not modelled.  [path.join] is Node's and is taken from
    the environment. *)

#[local] Set Warnings "-register-all".

Inductive Entry : Type :=
| File (name : jsstring)
| Dir (name : jsstring) (entries : list Entry).

Definition entryName (entry : Entry) : jsstring :=
  match entry with
  | File name => name
  | Dir name _ => name
  end.

Definition ignoreDirs : list jsstring :=
  [js "node_modules"; js ".next"; js "dist"; js "logs"; js "public"].

Definition ignoreFiles : list jsstring :=
  [js ".DS_Store"; js "package-lock.json"; js "yarn.lock"].

(** [names.includes(name)] *)
Definition includesName (names : list jsstring) (name : jsstring) : bool :=
  existsb (fun n => str_eqb n name) names.

(** [s.endsWith(suffix)] *)
Definition endsWith (suffix s : jsstring) : bool :=
  startsWith (rev suffix) (rev s).

Section Traversal.
Variable path_join : jsstring -> jsstring -> jsstring.

(** The body of the loop of [getProjectFiles] for one entry of [dir]: the
    paths it adds to [files]. *)
Fixpoint visit (dir : jsstring) (entry : Entry) : list jsstring :=
  let fullPath := path_join dir (entryName entry) in
  if includesName ignoreDirs (entryName entry) then []
  else
    match entry with
    | Dir _ entries => flat_map (visit fullPath) entries
    | File name =>
        if negb (includesName ignoreFiles name) &&
           (endsWith (js ".ts") name || endsWith (js ".tsx") name)
        then [fullPath]
        else []
    end.

(** [getProjectFiles(dir)], for the directory [dir] with the entries
    [entries]. *)
Definition getProjectFiles (dir : jsstring) (entries : list Entry)
  : list jsstring :=
  flat_map (visit dir) entries.
End Traversal.

(** * The vocabulary of the properties *)

(** The declarative reading of the patterns, against which the matcher is
    proved sound and complete.  [Matches r w rest cap cap']: the pattern
    [r] matches the text [w] when [rest] follows it, and turns the capture
    [cap] into [cap'].  Repetition and alternation are read without their
    priorities: any number of code units of the class, either branch. *)
Inductive Matches
  : regex -> jsstring -> jsstring -> option jsstring -> option jsstring -> Prop :=
| M_Eps rest cap : Matches Eps [] rest cap cap
| M_Chr c rest cap : Matches (Chr c) [c] rest cap cap
| M_Class (p : codeunit -> bool) c rest cap :
    p c = true -> Matches (Class p) [c] rest cap cap
| M_Seq r1 r2 w1 w2 rest cap cap1 cap2 :
    Matches r1 w1 (w2 ++ rest) cap cap1 ->
    Matches r2 w2 rest cap1 cap2 ->
    Matches (Seq r1 r2) (w1 ++ w2) rest cap cap2
| M_AltL r1 r2 w rest cap cap1 :
    Matches r1 w rest cap cap1 -> Matches (Alt r1 r2) w rest cap cap1
| M_AltR r1 r2 w rest cap cap1 :
    Matches r2 w rest cap cap1 -> Matches (Alt r1 r2) w rest cap cap1
| M_Many (p : codeunit -> bool) w rest cap :
    Forall (fun c => p c = true) w -> Matches (Many p) w rest cap cap
| M_Group r w rest cap cap1 :
    Matches r w rest cap cap1 -> Matches (Group r) w rest cap (Some w)
| M_End cap : Matches EndOfInput [] [] cap cap.

#[local] Hint Constructors Matches : core.

(** The code units the parameter pattern accepts before the colon. *)
Definition wordspace (c : codeunit) : bool := is_word c || is_space c.

(** [stops p rest]: a greedy run of the class [p] ends before [rest], which
    is empty or begins outside the class. *)
Definition stops (p : codeunit -> bool) (rest : jsstring) : Prop :=
  match rest with
  | [] => True
  | c :: _ => p c = false
  end.

(** A parameter that carries a type annotation: qualifier words and white
    space, the parameter's name, a colon, and the type's name, each
    possibly followed by white space. *)
Inductive annotated : jsstring -> jsstring -> Prop :=
| Annotated quals name ws1 ws2 ty rest :
    Forall (fun c => wordspace c = true) quals ->
    name <> [] -> Forall (fun c => is_word c = true) name ->
    Forall (fun c => is_space c = true) ws1 ->
    Forall (fun c => is_space c = true) ws2 ->
    ty <> [] -> Forall (fun c => is_word c = true) ty ->
    stops is_word rest ->
    annotated (quals ++ name ++ ws1 ++ [COLON] ++ ws2 ++ ty ++ rest) ty.

(** What one parameter contributes to the log, lines 89-93. *)
Definition dependencyOf (id param : jsstring) : list Interaction :=
  match exec depRe param with
  | Some depMatch => [injectInteraction id (group1 depMatch)]
  | None => []
  end.

(** The interactions the constructor loop appends for the class [id]. *)
Definition injected (id : jsstring) (params : list jsstring)
  : list Interaction :=
  flat_map (dependencyOf id) params.

(** The interactions lines 85-95 append for the class [id] of a file. *)
Definition constructorInteractions (id content : jsstring)
  : list Interaction :=
  match exec constructorRe content with
  | Some km => injected id (map trim (split COMMA (group1 km)))
  | None => []
  end.

(** The interaction lines 98-100 append for the class [id] of a file. *)
Definition prismaInteractions (id content : jsstring) : list Interaction :=
  if includes (js "PrismaService") content then [prismaInteraction id] else [].

(** What an interaction contributes to the output. *)
Definition renderedEdge (components : CompMap) (inter : Interaction)
  : jsstring :=
  if map_has (from inter) components && map_has (to inter) components
  then edgeLine inter else [].

(** The shape of every map the script builds: each [set] call stores a
    component under its own identifier, so the keys are distinct and each
    is the identifier of its component. *)
Definition keyed (m : CompMap) : Prop :=
  NoDup (map_keys m) /\ Forall (fun kv => id (snd kv) = fst kv) m.

(** The test of line 178. *)
Definition isClientPage (comp : Component) : bool :=
  CompType_eqb (type comp) ClientPage.

(** The output up to the edges: the header and the subgraph blocks, then
    the comment line that opens the edges. *)
Definition declarations (components : CompMap) : jsstring :=
  fold_left
    (emitSubgraph
       (fold_left (fun b comp => push (subgraph comp) (declLine comp) b)
                  (map_values components) emptyBuckets))
    subgraphOrder (js "graph TD" ++ LF)
  ++ (LF ++ js "  %% Interacciones" ++ LF).

(** The interaction of the persistence service with itself. *)
Definition prismaSelfInteraction : Interaction :=
  {| from := js "PrismaService"; to := js "PrismaService"; ilabel := js "usa";
     isAsync := None |}.

(** What [path.relative(from, to)] returns on POSIX for a file [to] below
    the directory [from]: the part of [to] after [from] and the separator.
    It stands for Node's function in the examples. *)
Definition relativeBelow (fromDir to : jsstring) : jsstring :=
  if startsWith (fromDir ++ js "/") to
  then skipn (List.length fromDir + 1) to
  else to.

(** ** The contribution of a file

    What a file adds is read off a run of its extractor on the empty
    model. *)

(** [components.set] for each entry of a list, in order. *)
Definition upsertAll (entries m : CompMap) : CompMap :=
  fold_left (fun acc kv => map_set (fst kv) (snd kv) acc) entries m.

(** The component a server file contributes (none or one) and the
    interactions it contributes. *)
Definition serverEntries (f : SourceFile) : CompMap :=
  fst (analyzeServerFile (fst f) (snd f) [] []).

Definition serverLog (f : SourceFile) : list Interaction :=
  snd (analyzeServerFile (fst f) (snd f) [] []).


(** ** The clusters of the rendered text *)

(** The components of a cluster, in the order of the map. *)
Definition members (components : CompMap) (g : Subgraph) : list Component :=
  filter (fun comp => Subgraph_eqb (subgraph comp) g) (map_values components).

(** The block of a cluster: nothing for a cluster without members. *)
Definition clusterBlock (components : CompMap) (g : Subgraph) : jsstring :=
  match members components g with
  | [] => []
  | _ :: _ =>
      js "  subgraph " ++ subgraphName g ++ LF
      ++ join LF (map declLine (members components g)) ++ LF
      ++ js "  end" ++ LF
  end.

(** ** The files of a tree

    [Listed join dir entry path]: [path] is the joined path of a file below
    the entry [entry] of the directory [dir] whose name ends in [.ts] or
    [.tsx], reached through directories none of which has an ignored name,
    the file's own name not being one either. *)

Inductive Listed (join : jsstring -> jsstring -> jsstring)
  : jsstring -> Entry -> jsstring -> Prop :=
| listed_file dir name :
    ~ In name ignoreDirs ->
    (exists stem, name = stem ++ js ".ts") \/
    (exists stem, name = stem ++ js ".tsx") ->
    Listed join dir (File name) (join dir name)
| listed_dir dir name entries entry path :
    ~ In name ignoreDirs ->
    In entry entries ->
    Listed join (join dir name) entry path ->
    Listed join dir (Dir name entries) path.

(** Induction on a tree of entries, with the property at hand for every
    entry of a directory. *)
Fixpoint Entry_ind' (P : Entry -> Prop)
         (Hfile : forall name, P (File name))
         (Hdir : forall name entries, Forall P entries -> P (Dir name entries))
         (entry : Entry) : P entry :=
  match entry with
  | File name => Hfile name
  | Dir name entries =>
      Hdir name entries
           ((fix all (l : list Entry) : Forall P l :=
               match l with
               | [] => Forall_nil P
               | e :: l' => Forall_cons e (Entry_ind' Hfile Hdir e) (all l')
               end) entries)
  end.



(** The interaction pushed on line 116 and the one pushed on line 124. *)
Definition fetchInteraction (page : jsstring) (target : Component)
           (endpoint : jsstring) : Interaction :=
  {| from := page; to := id target; ilabel := js "GET /api/" ++ endpoint;
     isAsync := None |}.

Definition socketInteraction (page : jsstring) (gateway : Component)
  : Interaction :=
  {| from := page; to := id gateway; ilabel := js "conecta a";
     isAsync := Some true |}.

(** * The inputs of the examples *)

(** A file that declares a class without exporting it. *)
Definition unexportedFile : jsstring :=
  js "@Injectable()" ++ LF ++ js "class Hidden { constructor(private a: B) {} }".

(** A controller file that also carries the injectable marker. *)
Definition ordersControllerFile : jsstring :=
  js "@Injectable()" ++ LF ++ js "@Controller('/orders')" ++ LF ++
  js "export class OrdersController { constructor(private readonly svc: OrdersService) {} }".

(** A class without any marker whose constructor has two annotated
    parameters and one that is not annotated. *)
Definition plainFile : jsstring :=
  js "export class Plain { constructor(private readonly svc: OrdersService, count, db : Db) {} }".

(** A constructor with an annotated parameter and an optional one. *)
Definition optionalFile : jsstring :=
  js "export class Job { constructor(private readonly svc: OrdersService, timeout?: Config) {} }".

(** A file that names the persistence service in a comment only. *)
Definition commentFile : jsstring :=
  js "// does not talk to PrismaService" ++ LF ++ js "export class Mailer {}".

(** A page of the client tree. *)
Definition homePage : Component :=
  {| id := js "Page(home)"; type := ClientPage; label := js "/home";
     filePath := js "home/page.tsx"; subgraph := SgClient |}.

(** The persistence service's own file. *)
Definition prismaFile : jsstring :=
  js "@Injectable()" ++ LF ++ js "export class PrismaService {}".

(** The model after the persistence service's file has been analysed. *)
Definition prismaModel : CompMap * list Interaction :=
  analyzeServerFile (js "prisma.service.ts") prismaFile [] [].

(** The root of the client tree in the examples. *)
Definition exampleClientDir : jsstring := js "/project/client/app".

(** The files of the scenario of the orders controller and its page. *)
Definition ordersServiceFile : jsstring :=
  js "@Injectable()" ++ LF ++ js "export class OrdersService {}".

(** A page that fetches from the orders controller. *)
Definition dashboardFile : jsstring :=
  js "const r = await fetch(" ++ [BACKTICK] ++ js "${apiUrl}/api/orders/123"
     ++ [BACKTICK] ++ js ");".

Definition scenarioServer : list SourceFile :=
  [(js "/project/server/src/orders.controller.ts", ordersControllerFile);
   (js "/project/server/src/orders.service.ts", ordersServiceFile)].

Definition scenarioClient : list SourceFile :=
  [(js "/project/client/app/dashboard/page.tsx", dashboardFile)].

(** * Properties *)

(** ** Strings *)

Lemma str_eqb_eq (a b : jsstring) : str_eqb a b = true <-> a = b.
Proof.
  revert b; induction a as [|x a IH]; intros [|y b]; simpl;
    try (split; congruence).
  rewrite andb_true_iff, N.eqb_eq, IH.
  split; [intros [-> ->]; reflexivity | intros H; inversion H; auto].
Qed.

Lemma str_eqb_refl (a : jsstring) : str_eqb a a = true.
Proof. apply str_eqb_eq; reflexivity. Qed.

Lemma str_eqb_neq (a b : jsstring) : str_eqb a b = false <-> a <> b.
Proof.
  rewrite <- str_eqb_eq. destruct (str_eqb a b); split; congruence.
Qed.

Lemma startsWith_spec (needle s : jsstring) :
  startsWith needle s = true <-> exists post, s = needle ++ post.
Proof.
  revert s; induction needle as [|x n IH]; intros s; simpl.
  - split; [exists s; reflexivity | reflexivity].
  - destruct s as [|y s].
    + split; [discriminate | intros [post H]; discriminate].
    + rewrite andb_true_iff, N.eqb_eq, IH. split.
      * intros [-> [post ->]]. exists post; reflexivity.
      * intros [post H]. inversion H; subst. split; eauto.
Qed.

Lemma includes_spec (needle s : jsstring) :
  includes needle s = true <-> exists pre post, s = pre ++ needle ++ post.
Proof.
  induction s as [|c s IH]; simpl; rewrite orb_true_iff.
  - split.
    + intros [H | H]; [|discriminate].
      apply startsWith_spec in H as [post H]. exists [], post; exact H.
    + intros [pre [post H]]. left. apply startsWith_spec.
      destruct pre; [exists post; exact H | discriminate].
  - rewrite IH. split.
    + intros [H | [pre [post ->]]].
      * apply startsWith_spec in H as [post H]. exists [], post; exact H.
      * exists (c :: pre), post; reflexivity.
    + intros [[|x pre] [post H]].
      * left. apply startsWith_spec. exists post; exact H.
      * right. inversion H; subst. exists pre, post; reflexivity.
Qed.

Lemma firstn_consumed (w rest : jsstring) :
  firstn (List.length (w ++ rest) - List.length rest) (w ++ rest) = w.
Proof.
  rewrite length_app, Nat.add_sub.
  rewrite firstn_app, Nat.sub_diag, firstn_all. simpl. apply app_nil_r.
Qed.

(** ** The matcher against the declarative reading of the patterns *)

Lemma many_sound (R : Type) p s (k : jsstring -> option R) x :
  many p s k = Some x ->
  exists w rest, s = w ++ rest /\ Forall (fun c => p c = true) w /\
                 k rest = Some x.
Proof.
  induction s as [|c s IH]; simpl; intros H.
  - exists [], []; auto.
  - destruct (p c) eqn:Hp.
    + destruct (many p s k) as [y|] eqn:Hm.
      * inversion H; subst y. destruct (IH eq_refl) as (w & rest & -> & Hw & Hk).
        exists (c :: w), rest; auto.
      * exists [], (c :: s); auto.
    + exists [], (c :: s); auto.
Qed.

Lemma many_complete (R : Type) p w rest (k : jsstring -> option R) :
  Forall (fun c => p c = true) w -> k rest <> None ->
  many p (w ++ rest) k <> None.
Proof.
  intros Hw Hk. induction Hw as [|c w Hc Hw IH]; simpl.
  - destruct rest as [|c s]; simpl; auto.
    destruct (p c); auto. destruct (many p s k); [discriminate | auto].
  - rewrite Hc. destruct (many p (w ++ rest) k); [discriminate | contradiction].
Qed.

(** A success of the matcher is a match of the pattern, handed to the
    continuation. *)
Lemma matchk_sound (R : Type) r :
  forall s cap (k : jsstring -> option jsstring -> option R) x,
    matchk r s cap k = Some x ->
    exists w rest cap',
      s = w ++ rest /\ Matches r w rest cap cap' /\ k rest cap' = Some x.
Proof.
  induction r as [|c|p|r1 IH1 r2 IH2|r1 IH1 r2 IH2|p|r1 IH1|];
    intros s cap k x H; simpl in H.
  - exists [], s, cap; auto.
  - destruct s as [|c' s]; [discriminate|].
    destruct (N.eqb c' c) eqn:E; [|discriminate].
    apply N.eqb_eq in E; subst c'. exists [c], s, cap; auto.
  - destruct s as [|c' s]; [discriminate|].
    destruct (p c') eqn:E; [|discriminate].
    exists [c'], s, cap; auto.
  - apply IH1 in H as (w1 & rest1 & cap1 & -> & M1 & H).
    apply IH2 in H as (w2 & rest & cap2 & -> & M2 & H).
    exists (w1 ++ w2), rest, cap2. rewrite <- app_assoc. eauto.
  - destruct (matchk r1 s cap k) as [y|] eqn:E.
    + inversion H; subst y.
      apply IH1 in E as (w & rest & cap' & -> & M & E). eauto 8.
    + apply IH2 in H as (w & rest & cap' & -> & M & E'). eauto 8.
  - apply many_sound in H as (w & rest & -> & Hw & H). eauto 8.
  - apply IH1 in H as (w & rest & cap' & -> & M & H).
    rewrite firstn_consumed in H. eauto 8.
  - destruct s; [|discriminate]. exists [], [], cap; auto.
Qed.

(** Where the pattern matches and the continuation accepts, the matcher
    succeeds (possibly on another match, tried earlier). *)
Lemma matchk_complete (R : Type) r w rest cap cap' :
  Matches r w rest cap cap' ->
  forall (k : jsstring -> option jsstring -> option R),
    k rest cap' <> None -> matchk r (w ++ rest) cap k <> None.
Proof.
  induction 1; intros k Hk; simpl; auto.
  - rewrite N.eqb_refl; auto.
  - rewrite H; auto.
  - rewrite <- app_assoc. apply IHMatches1. apply IHMatches2. exact Hk.
  - destruct (matchk r1 (w ++ rest) cap k) eqn:E; [discriminate|].
    exfalso. eapply IHMatches; eauto.
  - destruct (matchk r1 (w ++ rest) cap k); [discriminate|].
    apply IHMatches; auto.
  - apply many_complete; auto.
  - apply IHMatches. rewrite firstn_consumed. exact Hk.
Qed.

(** [exec] returns a match of the pattern, and says where it is. *)
Lemma exec_sound r s m :
  exec r s = Some m ->
  exists w, s = m_pre m ++ w ++ m_rest m /\
            Matches r w (m_rest m) None (m_group m).
Proof.
  revert m; induction s as [|c s IH]; intros m H; simpl in H.
  - destruct (matchk r [] None accept) as [[s' cap]|] eqn:E; [|discriminate].
    inversion H; subst m; simpl.
    apply matchk_sound in E as (w & rest & cap' & Hs & M & E).
    inversion E; subst. eauto.
  - destruct (matchk r (c :: s) None accept) as [[s' cap]|] eqn:E.
    + inversion H; subst m; simpl.
      apply matchk_sound in E as (w & rest & cap' & Hs & M & E).
      inversion E; subst. eauto.
    + destruct (exec r s) as [m'|] eqn:E'; [|discriminate].
      inversion H; subst m; simpl.
      destruct (IH _ eq_refl) as (w & -> & M). eauto.
Qed.

(** [exec] finds a match wherever the text holds one. *)
Lemma exec_complete r pre w rest cap' :
  Matches r w rest None cap' -> exec r (pre ++ w ++ rest) <> None.
Proof.
  intros M.
  assert (H0 : forall s, s = w ++ rest -> exec r s <> None).
  { intros s ->. destruct (w ++ rest) eqn:E; simpl; rewrite <- ?E.
    - destruct (matchk r (w ++ rest) None accept) as [[? ?]|] eqn:E';
        [discriminate|].
      exfalso. eapply matchk_complete; eauto. discriminate.
    - destruct (matchk r (w ++ rest) None accept) as [[? ?]|] eqn:E';
        [discriminate|].
      exfalso. eapply matchk_complete; eauto. discriminate. }
  induction pre as [|c pre IH]; simpl.
  - apply H0; reflexivity.
  - destruct (matchk r (c :: pre ++ w ++ rest) None accept) as [[? ?]|];
      [discriminate|].
    simpl in IH. destruct (exec r (pre ++ w ++ rest)); [discriminate|].
    contradiction.
Qed.

Lemma exec_unfold r s :
  exec r s =
  match matchk r s None accept with
  | Some (s', cap) => Some {| m_pre := []; m_group := cap; m_rest := s' |}
  | None =>
      match s with
      | [] => None
      | c :: t =>
          match exec r t with
          | Some m => Some {| m_pre := c :: m_pre m; m_group := m_group m;
                              m_rest := m_rest m |}
          | None => None
          end
      end
  end.
Proof. destruct s; reflexivity. Qed.

(** [exec] returns the leftmost match: no match of the pattern starts
    before it. *)
Lemma exec_leftmost r s : forall m pre w rest cap',
  exec r s = Some m -> s = pre ++ w ++ rest -> Matches r w rest None cap' ->
  List.length (m_pre m) <= List.length pre.
Proof.
  induction s as [|c t IH]; intros m pre w rest cap' H Hs M;
    rewrite exec_unfold in H.
  - destruct (matchk r [] None accept) as [[s' cap]|]; [|discriminate].
    inversion H; subst m. simpl. lia.
  - destruct (matchk r (c :: t) None accept) as [[s' cap]|] eqn:E.
    + inversion H; subst m. simpl. lia.
    + destruct (exec r t) as [m'|] eqn:E'; [|discriminate].
      inversion H; subst m. cbn [m_pre].
      destruct pre as [|c' pre].
      * exfalso. simpl in Hs. rewrite Hs in E.
        eapply matchk_complete; [exact M | | exact E]. discriminate.
      * simpl in Hs. inversion Hs; subst c' t.
        specialize (IH m' pre w rest cap' eq_refl eq_refl M). simpl. lia.
Qed.

(** ** What the patterns of the script match *)

(** [exec] returns what the matcher finds where the match starts. *)
Lemma exec_position r s : forall m,
  exec r s = Some m ->
  exists t, s = m_pre m ++ t /\
            matchk r t None accept = Some (m_rest m, m_group m).
Proof.
  induction s as [|c t IH]; intros m H; rewrite exec_unfold in H.
  - destruct (matchk r [] None accept) as [[s' cap]|] eqn:E; [|discriminate].
    inversion H; subst m. exists []. auto.
  - destruct (matchk r (c :: t) None accept) as [[s' cap]|] eqn:E.
    + inversion H; subst m. exists (c :: t). auto.
    + destruct (exec r t) as [m'|] eqn:E'; [|discriminate].
      inversion H; subst m. cbn [m_pre m_rest m_group].
      destruct (IH m' eq_refl) as (t' & -> & Hm). exists t'. auto.
Qed.

(** A greedy repetition before a continuation that accepts takes the whole
    run. *)
Lemma many_total (R : Type) p s (g : jsstring -> R) :
  many p s (fun t => Some (g t)) = Some (g (dropWhile p s)).
Proof.
  induction s as [|c s IH]; simpl; [reflexivity|].
  destruct (p c); [rewrite IH|]; reflexivity.
Qed.

Ltac inv H := inversion H; subst; clear H.

Lemma Matches_Eps_inv w rest cap cap' :
  Matches Eps w rest cap cap' -> w = [] /\ cap' = cap.
Proof. intros H; inv H; auto. Qed.

Lemma Matches_Chr_inv c w rest cap cap' :
  Matches (Chr c) w rest cap cap' -> w = [c] /\ cap' = cap.
Proof. intros H; inv H; auto. Qed.

Lemma Matches_Class_inv p w rest cap cap' :
  Matches (Class p) w rest cap cap' ->
  exists c, w = [c] /\ p c = true /\ cap' = cap.
Proof. intros H; inv H; eauto. Qed.

Lemma Matches_Seq_inv r1 r2 w rest cap cap2 :
  Matches (Seq r1 r2) w rest cap cap2 ->
  exists w1 w2 cap1,
    w = w1 ++ w2 /\ Matches r1 w1 (w2 ++ rest) cap cap1 /\
    Matches r2 w2 rest cap1 cap2.
Proof. intros H; inv H; eauto 8. Qed.

Lemma Matches_Alt_inv r1 r2 w rest cap cap' :
  Matches (Alt r1 r2) w rest cap cap' ->
  Matches r1 w rest cap cap' \/ Matches r2 w rest cap cap'.
Proof. intros H; inv H; auto. Qed.

Lemma Matches_Many_inv p w rest cap cap' :
  Matches (Many p) w rest cap cap' ->
  Forall (fun c => p c = true) w /\ cap' = cap.
Proof. intros H; inv H; auto. Qed.

Lemma Matches_Group_inv r w rest cap cap' :
  Matches (Group r) w rest cap cap' ->
  cap' = Some w /\ exists cap1, Matches r w rest cap cap1.
Proof. intros H; inv H; eauto. Qed.

Lemma Matches_End_inv w rest cap cap' :
  Matches EndOfInput w rest cap cap' -> w = [] /\ rest = [] /\ cap' = cap.
Proof. intros H; inv H; auto. Qed.

Lemma Matches_Lit l rest cap : Matches (Lit l) l rest cap cap.
Proof.
  revert rest cap; induction l as [|c l IH]; intros; simpl; [constructor|].
  change (c :: l) with ([c] ++ l). econstructor; eauto.
Qed.

Lemma Matches_Lit_inv l w rest cap cap' :
  Matches (Lit l) w rest cap cap' -> w = l /\ cap' = cap.
Proof.
  revert w rest cap cap'; induction l as [|c l IH]; intros w rest cap cap' H;
    simpl in H.
  - apply Matches_Eps_inv in H; exact H.
  - apply Matches_Seq_inv in H as (w1 & w2 & cap1 & -> & M1 & M2).
    apply Matches_Chr_inv in M1 as [-> ->].
    apply IH in M2 as [-> ->]. auto.
Qed.

Lemma Matches_Many1_inv p w rest cap cap' :
  Matches (Many1 p) w rest cap cap' ->
  w <> [] /\ Forall (fun c => p c = true) w /\ cap' = cap.
Proof.
  intros H. apply Matches_Seq_inv in H as (w1 & w2 & cap1 & -> & M1 & M2).
  apply Matches_Class_inv in M1 as (c & -> & Hc & ->).
  apply Matches_Many_inv in M2 as [Hw ->].
  simpl. repeat split; [discriminate | auto].
Qed.

Lemma Matches_Many1 (p : codeunit -> bool) w rest cap :
  w <> [] -> Forall (fun c => p c = true) w -> Matches (Many1 p) w rest cap cap.
Proof.
  intros Hne Hw. destruct w as [|c w]; [contradiction|]. inv Hw.
  change (c :: w) with ([c] ++ w). econstructor; eauto.
Qed.

(** A literal pattern matches where [includes] finds the literal. *)
Lemma exec_Lit_includes l s :
  exec (Lit l) s <> None <-> includes l s = true.
Proof.
  rewrite includes_spec. split.
  - destruct (exec (Lit l) s) as [m|] eqn:E; [|congruence]. intros _.
    apply exec_sound in E as (w & -> & M).
    apply Matches_Lit_inv in M as [-> _]. eauto.
  - intros (pre & post & ->). eapply exec_complete. apply Matches_Lit.
Qed.

Lemma exec_Lit_None l s :
  exec (Lit l) s = None <-> includes l s = false.
Proof.
  pose proof (exec_Lit_includes l s) as H.
  destruct (exec (Lit l) s), (includes l s); split; intros; try congruence.
  - exfalso. assert (false = true) by (apply H; discriminate). discriminate.
  - exfalso. apply H; auto.
Qed.

(** A match of the class pattern is [export class] followed by a word, and
    the word is the capture. *)
Lemma classNameRe_sound content cn :
  exec classNameRe content = Some cn ->
  content = m_pre cn ++ js "export class " ++ group1 cn ++ m_rest cn /\
  group1 cn <> [] /\ Forall (fun c => is_word c = true) (group1 cn).
Proof.
  intros H. apply exec_sound in H as (w & Hc & M). unfold classNameRe in M.
  apply Matches_Seq_inv in M as (w1 & w2 & cap1 & -> & M1 & M2).
  apply Matches_Lit_inv in M1 as [-> ->].
  apply Matches_Group_inv in M2 as [E [cap2 M2]].
  apply Matches_Many1_inv in M2 as (Hne & Hw & _).
  unfold group1. rewrite E, Hc, <- app_assoc. auto.
Qed.

(** A text in which [export class] is never followed by a word character
    has no match of the class pattern. *)
Lemma classNameRe_None content :
  (forall pre c post,
      content = pre ++ js "export class " ++ c :: post -> is_word c = false) ->
  exec classNameRe content = None.
Proof.
  intros Hno. destruct (exec classNameRe content) as [cn|] eqn:E; [|reflexivity].
  apply classNameRe_sound in E as (Hc & Hne & Hw).
  destruct (group1 cn) as [|c g]; [contradiction|]. apply Forall_inv in Hw.
  assert (is_word c = false) by (eapply Hno; exact Hc).
  congruence.
Qed.

Lemma classNameRe_complete pre c post :
  is_word c = true ->
  exec classNameRe (pre ++ js "export class " ++ c :: post) <> None.
Proof.
  intros Hc.
  replace (pre ++ js "export class " ++ c :: post)
    with (pre ++ (js "export class " ++ [c]) ++ post)
    by (rewrite <- !app_assoc; reflexivity).
  eapply exec_complete. unfold classNameRe. econstructor.
  - apply Matches_Lit.
  - econstructor. apply Matches_Many1; [discriminate | auto].
Qed.

Lemma stops_dropWhile p s : stops p (dropWhile p s).
Proof.
  induction s as [|c s IH]; simpl; [exact I|].
  destruct (p c) eqn:E; [exact IH | exact E].
Qed.

(** The class identifier: the whole word after the first [export class]
    of the text that a word follows. *)
Lemma classNameRe_capture content cn :
  exec classNameRe content = Some cn ->
  content = m_pre cn ++ js "export class " ++ group1 cn ++ m_rest cn /\
  stops is_word (m_rest cn) /\
  forall pre c post,
    content = pre ++ js "export class " ++ c :: post -> is_word c = true ->
    List.length (m_pre cn) <= List.length pre.
Proof.
  intros H. split; [apply classNameRe_sound; exact H|]. split.
  - apply exec_position in H as (t & _ & H).
    unfold classNameRe in H. cbn [matchk] in H.
    apply matchk_sound in H as (w & rest & cap' & _ & _ & H).
    unfold Many1 in H. cbn [matchk] in H.
    destruct rest as [|c rest]; [discriminate|].
    destruct (is_word c); [|discriminate].
    unfold accept in H. rewrite many_total in H.
    inversion H. apply stops_dropWhile.
  - intros pre c post Hc Hw.
    apply (@exec_leftmost classNameRe content cn pre
             (js "export class " ++ [c]) post (Some [c]) H).
    + rewrite Hc, <- !app_assoc. reflexivity.
    + unfold classNameRe. eapply M_Seq; [apply Matches_Lit|].
      eapply M_Group. apply Matches_Many1; [discriminate|].
      constructor; [exact Hw | constructor].
Qed.

(** A match of the route pattern is the annotation with a quoted string
    that holds no apostrophe; the string is the capture. *)
Lemma controllerRe_sound content cm :
  exec controllerRe content = Some cm ->
  content = m_pre cm ++ js "@Controller('" ++ group1 cm ++ js "')" ++ m_rest cm /\
  ~ In APOSTROPHE (group1 cm).
Proof.
  intros H. apply exec_sound in H as (w & Hc & M). unfold controllerRe in M.
  apply Matches_Seq_inv in M as (w1 & w2 & cap1 & -> & M1 & M2).
  apply Matches_Lit_inv in M1 as [-> ->].
  apply Matches_Seq_inv in M2 as (w3 & w4 & cap2 & -> & M3 & M4).
  apply Matches_Group_inv in M3 as [-> [cap3 M3]].
  apply Matches_Many_inv in M3 as [Hw _].
  apply Matches_Lit_inv in M4 as [-> E].
  unfold group1. rewrite E, Hc, <- !app_assoc. split; [reflexivity|].
  intros Hin. rewrite Forall_forall in Hw. apply Hw in Hin. discriminate.
Qed.

(** A match of the constructor pattern is [constructor(], a text without a
    closing parenthesis, and the closing parenthesis; the text between is
    the capture. *)
Lemma constructorRe_sound content km :
  exec constructorRe content = Some km ->
  content = m_pre km ++ js "constructor(" ++ group1 km ++ [RPAREN] ++ m_rest km /\
  ~ In RPAREN (group1 km).
Proof.
  intros H. apply exec_sound in H as (w & Hc & M). unfold constructorRe in M.
  apply Matches_Seq_inv in M as (w1 & w2 & cap1 & -> & M1 & M2).
  apply Matches_Lit_inv in M1 as [-> ->].
  apply Matches_Seq_inv in M2 as (w3 & w4 & cap2 & -> & M3 & M4).
  apply Matches_Group_inv in M3 as [-> [cap3 M3]].
  apply Matches_Many_inv in M3 as [Hw _].
  apply Matches_Chr_inv in M4 as [-> E].
  unfold group1. rewrite E, Hc, <- !app_assoc. split; [reflexivity|].
  intros Hin. rewrite Forall_forall in Hw. apply Hw in Hin. discriminate.
Qed.

(** The match of the constructor pattern is the first parameter list of the
    text: no [constructor(...)] starts before it. *)
Lemma constructorRe_first content km pre params post :
  exec constructorRe content = Some km ->
  content = pre ++ js "constructor(" ++ params ++ [RPAREN] ++ post ->
  ~ In RPAREN params ->
  List.length (m_pre km) <= List.length pre.
Proof.
  intros H Hc Hno.
  apply (@exec_leftmost constructorRe content km pre
           (js "constructor(" ++ params ++ [RPAREN]) post (Some params) H).
  - rewrite Hc, <- !app_assoc. reflexivity.
  - unfold constructorRe. eapply M_Seq; [apply Matches_Lit|].
    eapply M_Seq; [|apply M_Chr].
    eapply M_Group. apply M_Many.
    apply Forall_forall. intros x Hx. unfold isnot.
    destruct (N.eqb x RPAREN) eqn:E; [|reflexivity].
    apply N.eqb_eq in E. subst x. contradiction.
Qed.

(** ** The parameter pattern *)

Lemma word_not_space c : is_word c = true -> is_space c = false.
Proof.
  unfold is_word, is_space. intros H.
  repeat rewrite ?orb_true_iff, ?andb_true_iff, ?N.leb_le, ?N.eqb_eq in H.
  repeat rewrite ?orb_false_iff, ?andb_false_iff, ?N.leb_gt, ?N.eqb_neq.
  lia.
Qed.

Lemma forallb_Forall (p : codeunit -> bool) l :
  forallb p l = true -> Forall (fun c => p c = true) l.
Proof. rewrite forallb_forall, Forall_forall. auto. Qed.

Lemma Forall_word_wordspace l :
  Forall (fun c => is_word c = true) l ->
  Forall (fun c => wordspace c = true) l.
Proof.
  apply Forall_impl. intros c H. unfold wordspace. rewrite H. reflexivity.
Qed.

Lemma Forall_space_wordspace l :
  Forall (fun c => is_space c = true) l ->
  Forall (fun c => wordspace c = true) l.
Proof.
  apply Forall_impl. intros c H. unfold wordspace. rewrite H. apply orb_true_r.
Qed.

#[local] Hint Resolve Forall_word_wordspace Forall_space_wordspace : core.

(** The part of the parameter pattern up to the colon matches words and
    white space only, sets no capture and ends with the colon. *)
Lemma depHead_inv w rest cap cap' :
  Matches depHead w rest cap cap' ->
  cap' = cap /\
  exists u, w = u ++ [COLON] /\ Forall (fun c => wordspace c = true) u.
Proof.
  unfold depHead, Opt. intros M.
  apply Matches_Seq_inv in M as (w1 & x1 & c1 & -> & M1 & M).
  apply Matches_Seq_inv in M as (w2 & x2 & c2 & -> & M2 & M).
  apply Matches_Seq_inv in M as (w3 & x3 & c3 & -> & M3 & M).
  apply Matches_Seq_inv in M as (w4 & x4 & c4 & -> & M4 & M).
  apply Matches_Seq_inv in M as (w5 & x5 & c5 & -> & M5 & M).
  apply Matches_Seq_inv in M as (w6 & x6 & c6 & -> & M6 & M).
  apply Matches_Chr_inv in M as [-> ->].
  apply Matches_Many_inv in M6 as [H6 ->].
  apply Matches_Many1_inv in M5 as (_ & H5 & ->).
  apply Matches_Many_inv in M4 as [H4 ->].
  apply Matches_Many_inv in M2 as [H2 ->].
  assert (H1 : Forall (fun c => wordspace c = true) w1 /\ c1 = cap).
  { apply Matches_Alt_inv in M1 as [M1 | M1].
    - apply Matches_Alt_inv in M1 as [M1 | M1];
        [|apply Matches_Alt_inv in M1 as [M1 | M1]];
        apply Matches_Lit_inv in M1 as [-> ->];
        (split; [apply forallb_Forall; reflexivity | reflexivity]).
    - apply Matches_Eps_inv in M1 as [-> ->]. auto. }
  destruct H1 as [H1 ->].
  assert (H3 : Forall (fun c => wordspace c = true) w3 /\ c3 = cap).
  { apply Matches_Alt_inv in M3 as [M3 | M3].
    - apply Matches_Lit_inv in M3 as [-> ->].
      split; [apply forallb_Forall; reflexivity | reflexivity].
    - apply Matches_Eps_inv in M3 as [-> ->]. auto. }
  destruct H3 as [H3 ->].
  split; [reflexivity|].
  exists (w1 ++ w2 ++ w3 ++ w4 ++ w5 ++ w6). split.
  - rewrite <- !app_assoc. reflexivity.
  - repeat (apply Forall_app; split); auto.
Qed.

(** The first code unit outside a class splits a text in one way only. *)
Lemma split_at_first (P : codeunit -> bool) c :
  P c = false ->
  forall v u t r,
    Forall (fun x => P x = true) v -> Forall (fun x => P x = true) u ->
    v ++ c :: t = u ++ c :: r -> v = u /\ t = r.
Proof.
  intros Hc. induction v as [|a v IH]; intros u t r Hv Hu E.
  - destruct u as [|b u]; simpl in E.
    + inversion E; auto.
    + inversion E; subst b. apply Forall_inv in Hu. congruence.
  - destruct u as [|b u]; simpl in E.
    + inversion E; subst a. apply Forall_inv in Hv. congruence.
    + inversion E; subst b.
      destruct (IH u t r) as [-> ->]; auto.
      * exact (Forall_inv_tail Hv).
      * exact (Forall_inv_tail Hu).
Qed.

Lemma many_greedy (R : Type) p w rest (k : jsstring -> option R) x :
  Forall (fun c => p c = true) w -> stops p rest -> k rest = Some x ->
  many p (w ++ rest) k = Some x.
Proof.
  intros Hw Hs Hk. induction Hw as [|c w Hc Hw IH]; simpl.
  - destruct rest as [|c r]; simpl in *; auto. rewrite Hs. exact Hk.
  - rewrite Hc, IH. reflexivity.
Qed.

(** After the colon the pattern skips the white space and captures the
    whole word that follows. *)
Lemma depTail_run ws ty rest cap :
  Forall (fun c => is_space c = true) ws ->
  ty <> [] -> Forall (fun c => is_word c = true) ty -> stops is_word rest ->
  matchk depTail (ws ++ ty ++ rest) cap accept = Some (rest, Some ty).
Proof.
  intros Hws Hne Hty Hs. unfold depTail. cbn [matchk].
  apply many_greedy; auto.
  - destruct ty as [|c ty]; [contradiction|]. simpl.
    apply word_not_space. exact (Forall_inv Hty).
  - destruct ty as [|c ty]; [contradiction|].
    unfold Many1. cbn [matchk app].
    rewrite (Forall_inv Hty).
    apply many_greedy; auto.
    + exact (Forall_inv_tail Hty).
    + unfold accept.
      change (c :: ty ++ rest) with ((c :: ty) ++ rest).
      rewrite firstn_consumed. reflexivity.
Qed.

Lemma colon_not_wordspace : wordspace COLON = false.
Proof. reflexivity. Qed.

(** Wherever the pattern succeeds before the colon of [v : ty], it
    captures [ty]. *)
Lemma depRe_success v ws ty rest x :
  Forall (fun c => wordspace c = true) v ->
  Forall (fun c => is_space c = true) ws ->
  ty <> [] -> Forall (fun c => is_word c = true) ty -> stops is_word rest ->
  matchk depRe (v ++ COLON :: ws ++ ty ++ rest) None accept = Some x ->
  x = (rest, Some ty).
Proof.
  intros Hv Hws Hne Hty Hs H. unfold depRe in H. cbn [matchk] in H.
  apply matchk_sound in H as (w & r & cap' & E & M & H).
  apply depHead_inv in M as [-> (u & -> & Hu)].
  rewrite <- app_assoc in E. simpl in E.
  destruct (@split_at_first wordspace COLON colon_not_wordspace _ _ _ _ Hv Hu E)
    as [_ <-].
  rewrite depTail_run in H; auto. congruence.
Qed.

(** The pattern succeeds at the name before the colon. *)
Lemma depRe_at_name name ws1 ws2 ty rest :
  name <> [] -> Forall (fun c => is_word c = true) name ->
  Forall (fun c => is_space c = true) ws1 ->
  Forall (fun c => is_space c = true) ws2 ->
  ty <> [] -> Forall (fun c => is_word c = true) ty ->
  matchk depRe (name ++ ws1 ++ COLON :: ws2 ++ ty ++ rest) None accept <> None.
Proof.
  intros Hn Hname H1 H2 Ht Hty.
  assert (M : Matches depRe
                ((([] ++ [] ++ [] ++ [] ++ name ++ ws1 ++ [COLON])) ++ ws2 ++ ty)
                rest None (Some ty)).
  { unfold depRe, depHead, depTail, Opt.
    repeat (eapply M_Seq); eauto using Matches_Many1. }
  simpl in M.
  replace (name ++ ws1 ++ COLON :: ws2 ++ ty ++ rest)
    with (((name ++ ws1 ++ [COLON]) ++ ws2 ++ ty) ++ rest)
    by (rewrite <- !app_assoc; reflexivity).
  eapply matchk_complete; eauto. discriminate.
Qed.

Lemma exec_depRe_annotated param ty :
  annotated param ty ->
  exists m, exec depRe param = Some m /\ group1 m = ty.
Proof.
  intros [quals name ws1 ws2 ty' rest Hq Hn Hname H1 H2 Ht Hty Hs].
  change ([COLON] ++ ws2 ++ ty' ++ rest) with (COLON :: ws2 ++ ty' ++ rest).
  induction quals as [|c quals IH]; cbn [app]; rewrite exec_unfold.
  - pose proof (@depRe_at_name name ws1 ws2 ty' rest Hn Hname H1 H2 Ht Hty) as B.
    destruct (matchk depRe (name ++ ws1 ++ COLON :: ws2 ++ ty' ++ rest) None accept)
      as [x|] eqn:E; [|contradiction].
    rewrite app_assoc in E.
    apply depRe_success in E; auto; [|apply Forall_app; split; auto].
    subst x. eexists; split; reflexivity.
  - destruct (matchk depRe (c :: quals ++ name ++ ws1 ++ COLON :: ws2 ++ ty' ++ rest)
                     None accept) as [x|] eqn:E.
    + replace (c :: quals ++ name ++ ws1 ++ COLON :: ws2 ++ ty' ++ rest)
        with (((c :: quals) ++ name ++ ws1) ++ COLON :: ws2 ++ ty' ++ rest) in E
        by (rewrite <- !app_assoc; reflexivity).
      apply depRe_success in E; auto;
        [|repeat (apply Forall_app; split); auto].
      subst x. eexists; split; reflexivity.
    + destruct IH as (m & Hm & Hg); [exact (Forall_inv_tail Hq)|].
      rewrite Hm. eexists; split; [reflexivity|]. exact Hg.
Qed.

(** A parameter without a colon does not match. *)
Lemma exec_depRe_no_colon param :
  ~ In COLON param -> exec depRe param = None.
Proof.
  intros Hno. destruct (exec depRe param) as [m|] eqn:E; [|reflexivity].
  exfalso. apply Hno.
  apply exec_sound in E as (w & -> & M). unfold depRe in M.
  apply Matches_Seq_inv in M as (w1 & w2 & cap1 & -> & M1 & M2).
  apply depHead_inv in M1 as [_ (u & -> & _)].
  rewrite !in_app_iff. simpl. auto 10.
Qed.

(** ** The server extractor *)

Lemma fold_pushDependency id params acc :
  fold_left (pushDependency id) params acc = acc ++ injected id params.
Proof.
  revert acc; induction params as [|p params IH]; intros acc; simpl.
  - rewrite app_nil_r; reflexivity.
  - rewrite IH. unfold pushDependency, dependencyOf.
    destruct (exec depRe p); simpl; rewrite <- ?app_assoc; reflexivity.
Qed.

(** The interaction log after a file with an exported class: the log
    before, the constructor's interactions, the persistence interaction. *)
Lemma analyzeServerFile_interactions filePath content components interactions cn :
  exec classNameRe content = Some cn ->
  snd (analyzeServerFile filePath content components interactions) =
  interactions ++ constructorInteractions (group1 cn) content
               ++ prismaInteractions (group1 cn) content.
Proof.
  intros H. unfold analyzeServerFile, constructorInteractions, prismaInteractions.
  rewrite H. cbn [snd].
  destruct (exec constructorRe content) as [km|].
  - rewrite fold_pushDependency.
    destruct (includes (js "PrismaService") content);
      rewrite <- ?app_assoc, ?app_nil_r; reflexivity.
  - destruct (includes (js "PrismaService") content);
      rewrite ?app_nil_r; reflexivity.
Qed.

Lemma injected_inyecta id params :
  Forall (fun i => from i = id /\ ilabel i = label_inyecta) (injected id params).
Proof.
  unfold injected. induction params as [|p params IH]; simpl; [constructor|].
  apply Forall_app; split; [|exact IH].
  unfold dependencyOf. destruct (exec depRe p); repeat constructor.
Qed.

Lemma constructorInteractions_inyecta id content :
  Forall (fun i => from i = id /\ ilabel i = label_inyecta)
         (constructorInteractions id content).
Proof.
  unfold constructorInteractions.
  destruct (exec constructorRe content); [apply injected_inyecta | constructor].
Qed.

Lemma dependencyOf_annotated id param ty :
  annotated param ty -> dependencyOf id param = [injectInteraction id ty].
Proof.
  intros Ha. unfold dependencyOf.
  apply exec_depRe_annotated in Ha as (m & -> & ->). reflexivity.
Qed.

Lemma dependencyOf_no_colon id param :
  ~ In COLON param -> dependencyOf id param = [].
Proof.
  intros Hn. unfold dependencyOf. rewrite exec_depRe_no_colon by exact Hn.
  reflexivity.
Qed.

(** C6: a server file whose text has no exported class declaration (no
    [export class] followed by a word character) leaves the model as it
    was: the same component map and the same interaction log. *)
Theorem analyzeServerFile_no_class filePath content components interactions :
  (forall pre c post,
      content = pre ++ js "export class " ++ c :: post -> is_word c = false) ->
  analyzeServerFile filePath content components interactions =
  (components, interactions).
Proof.
  intros H. unfold analyzeServerFile.
  rewrite (classNameRe_None H). reflexivity.
Qed.

Lemma includes_false_no_occurrence needle s :
  includes needle s = false ->
  forall pre post, s <> pre ++ needle ++ post.
Proof.
  intros H pre post E.
  assert (includes needle s = true) by (apply includes_spec; eauto).
  congruence.
Qed.

Lemma analyzeServerFile_no_class_witness :
  (forall pre c post,
      unexportedFile = pre ++ js "export class " ++ c :: post ->
      is_word c = false) /\
  analyzeServerFile (js "hidden.ts") unexportedFile
                    [(js "A", serviceComponent (js "A") (js "a.ts"))]
                    [prismaInteraction (js "A")] =
  ([(js "A", serviceComponent (js "A") (js "a.ts"))],
   [prismaInteraction (js "A")]).
Proof.
  assert (H : forall pre c post,
             unexportedFile = pre ++ js "export class " ++ c :: post ->
             is_word c = false).
  { intros pre c post E. exfalso.
    apply (@includes_false_no_occurrence (js "export class ") unexportedFile
             eq_refl pre (c :: post)).
    exact E. }
  split; [exact H|].
  apply analyzeServerFile_no_class. exact H.
Defined.

Lemma includes_middle pre needle post :
  includes needle (pre ++ needle ++ post) = true.
Proof. apply includes_spec. eauto. Qed.

(** Without any marker in the file the component map is left as it was. *)
Lemma analyzeServerFile_unclassified
      filePath content components interactions cn :
  exec classNameRe content = Some cn ->
  exec controllerRe content = None ->
  includes (js "@Injectable()") content = false ->
  includes (js "@WebSocketGateway()") content = false ->
  fst (analyzeServerFile filePath content components interactions) = components.
Proof.
  intros Hc Hr Hs Hg. unfold analyzeServerFile. rewrite Hc, Hr.
  apply exec_Lit_None in Hs, Hg. unfold injectableRe, gatewayRe.
  rewrite Hs, Hg. reflexivity.
Qed.

(** C3: in a server file with an exported class, the class is classified
    by the first marker present, in the order route annotation, injectable,
    websocket gateway.  A route annotation makes it a Controller whose
    label embeds [/api] followed by the annotation's string, whatever other
    markers the file has; otherwise an injectable marker makes it a
    Service; otherwise a gateway marker makes it a Gateway with the
    WebSocket sub-label; with no marker the component map is unchanged. *)
Theorem analyzeServerFile_classification
        filePath content components interactions cn :
  exec classNameRe content = Some cn ->
  let name := group1 cn in
  let after := fst (analyzeServerFile filePath content components interactions) in
  (forall cm,
      exec controllerRe content = Some cm ->
      let value := group1 cm in
      let comp := {| id := name; type := Controller;
                     label := name ++ js "<br><small>" ++ (js "/api" ++ value)
                                   ++ js "</small>";
                     filePath := filePath; subgraph := SgServer |} in
      after = map_set name comp components /\
      includes (js "/api" ++ value) (label comp) = true /\
      exists pre post,
        content = pre ++ js "@Controller('" ++ value ++ js "')" ++ post) /\
  (exec controllerRe content = None ->
   includes (js "@Injectable()") content = true ->
   after = map_set name {| id := name; type := Service; label := name;
                           filePath := filePath; subgraph := SgServer |}
                   components) /\
  (exec controllerRe content = None ->
   includes (js "@Injectable()") content = false ->
   includes (js "@WebSocketGateway()") content = true ->
   after = map_set name {| id := name; type := Gateway;
                           label := name ++ js "<br><small>WebSocket</small>";
                           filePath := filePath; subgraph := SgServer |}
                   components) /\
  (exec controllerRe content = None ->
   includes (js "@Injectable()") content = false ->
   includes (js "@WebSocketGateway()") content = false ->
   after = components).
Proof.
  intros Hc name after. subst after. unfold analyzeServerFile. rewrite Hc.
  cbn [fst]. fold name. repeat split.
  - rewrite H. reflexivity.
  - cbn [label]. rewrite app_assoc. apply includes_middle.
  - apply controllerRe_sound in H as [H _]. eauto.
  - intros Hr Hs. rewrite Hr.
    destruct (exec injectableRe content) eqn:E; [reflexivity|].
    apply exec_Lit_None in E. congruence.
  - intros Hr Hs Hg. rewrite Hr.
    apply exec_Lit_None in Hs. unfold injectableRe. rewrite Hs.
    destruct (exec gatewayRe content) eqn:E; [reflexivity|].
    apply exec_Lit_None in E. congruence.
  - intros Hr Hs Hg. rewrite Hr.
    apply exec_Lit_None in Hs, Hg. unfold injectableRe, gatewayRe.
    rewrite Hs, Hg. reflexivity.
Qed.

Lemma analyzeServerFile_classification_witness :
  exists cn,
    exec classNameRe ordersControllerFile = Some cn /\
    fst (analyzeServerFile (js "orders.controller.ts") ordersControllerFile [] []) =
    [(js "OrdersController",
      {| id := js "OrdersController"; type := Controller;
         label := js "OrdersController<br><small>/api/orders</small>";
         filePath := js "orders.controller.ts"; subgraph := SgServer |})].
Proof.
  destruct (exec classNameRe ordersControllerFile) as [cn|] eqn:Hcn;
    [|vm_compute in Hcn; discriminate].
  exists cn. split; [reflexivity|].
  destruct (exec controllerRe ordersControllerFile) as [cm|] eqn:Hcm;
    [|vm_compute in Hcm; discriminate].
  destruct (@analyzeServerFile_classification
              (js "orders.controller.ts") ordersControllerFile [] [] cn Hcn)
    as [H _].
  destruct (H cm Hcm) as [-> _].
  vm_compute in Hcn, Hcm. inversion Hcn; subst cn. inversion Hcm; subst cm.
  reflexivity.
Defined.

(** C4, as amended: in a server file with an exported class, the pattern
    of the constructor finds the first parameter list of the text, and the
    extractor appends to the log what each of its comma-separated, trimmed
    parameters contributes, in order: a parameter of the form
    [qualifiers name : Type] contributes one interaction from the class to
    the type's name, labelled [inyecta], and a parameter without a colon
    contributes none.  This holds whether or not the class was classified:
    with no marker in the file the component map is unchanged and the
    interactions are appended all the same.  An empty parameter list
    appends no such interaction. *)
Theorem analyzeServerFile_injections
        filePath content components interactions cn km :
  exec classNameRe content = Some cn ->
  exec constructorRe content = Some km ->
  let name := group1 cn in
  let params := map trim (split COMMA (group1 km)) in
  let after := analyzeServerFile filePath content components interactions in
  (content = m_pre km ++ js "constructor(" ++ group1 km ++ [RPAREN] ++ m_rest km /\
   forall pre text post,
     content = pre ++ js "constructor(" ++ text ++ [RPAREN] ++ post ->
     ~ In RPAREN text ->
     List.length (m_pre km) <= List.length pre) /\
  snd after =
    interactions ++ flat_map (dependencyOf name) params
                 ++ prismaInteractions name content /\
  (forall param ty,
      annotated param ty ->
      dependencyOf name param =
      [{| from := name; to := ty; ilabel := js "inyecta"; isAsync := None |}]) /\
  (forall param, ~ In COLON param -> dependencyOf name param = []) /\
  (exec controllerRe content = None ->
   includes (js "@Injectable()") content = false ->
   includes (js "@WebSocketGateway()") content = false ->
   fst after = components) /\
  (group1 km = [] ->
   snd after = interactions ++ prismaInteractions name content).
Proof.
  intros Hc Hk name params after. subst after params name.
  assert (Hsnd : snd (analyzeServerFile filePath content components interactions) =
                 interactions
                 ++ flat_map (dependencyOf (group1 cn))
                             (map trim (split COMMA (group1 km)))
                 ++ prismaInteractions (group1 cn) content).
  { rewrite (@analyzeServerFile_interactions filePath content components
                                             interactions cn Hc).
    unfold constructorInteractions. rewrite Hk. reflexivity. }
  split; [split|split; [|split; [|split; [|split]]]].
  - apply constructorRe_sound. exact Hk.
  - intros pre text post. apply constructorRe_first. exact Hk.
  - exact Hsnd.
  - intros param ty. apply dependencyOf_annotated.
  - intros param. apply dependencyOf_no_colon.
  - intros Hr Hs Hg.
    apply (@analyzeServerFile_unclassified
             filePath content components interactions cn Hc);
      assumption.
  - intros E. rewrite Hsnd, E. cbn [split map flat_map].
    rewrite dependencyOf_no_colon; [reflexivity|].
    vm_compute. tauto.
Qed.

Ltac nonempty := let E := fresh in intro E; vm_compute in E; discriminate E.
Ltac all_in_class := apply forallb_Forall; vm_compute; reflexivity.

Lemma analyzeServerFile_injections_witness :
  exists cn km,
    exec classNameRe plainFile = Some cn /\
    exec constructorRe plainFile = Some km /\
    map trim (split COMMA (group1 km)) =
      [js "private readonly svc: OrdersService"; js "count"; js "db : Db"] /\
    annotated (js "private readonly svc: OrdersService") (js "OrdersService") /\
    ~ In COLON (js "count") /\
    annotated (js "db : Db") (js "Db") /\
    analyzeServerFile (js "plain.ts") plainFile [] [] =
    ([], [injectInteraction (js "Plain") (js "OrdersService");
          injectInteraction (js "Plain") (js "Db")]).
Proof.
  destruct (exec classNameRe plainFile) as [cn|] eqn:Hcn;
    [|vm_compute in Hcn; discriminate].
  destruct (exec constructorRe plainFile) as [km|] eqn:Hkm;
    [|vm_compute in Hkm; discriminate].
  exists cn, km.
  assert (Hp : map trim (split COMMA (group1 km)) =
               [js "private readonly svc: OrdersService"; js "count";
                js "db : Db"]).
  { vm_compute in Hkm. inversion Hkm; subst km. vm_compute. reflexivity. }
  assert (H1 : annotated (js "private readonly svc: OrdersService")
                         (js "OrdersService")).
  { change (annotated (js "private readonly " ++ js "svc" ++ [] ++ [COLON]
                          ++ js " " ++ js "OrdersService" ++ [])
                      (js "OrdersService")).
    apply Annotated; try all_in_class; try nonempty; exact I. }
  assert (H2 : ~ In COLON (js "count")) by (vm_compute; intuition discriminate).
  assert (H3 : annotated (js "db : Db") (js "Db")).
  { change (annotated ([] ++ js "db" ++ js " " ++ [COLON] ++ js " "
                          ++ js "Db" ++ [])
                      (js "Db")).
    apply Annotated; try all_in_class; try nonempty; exact I. }
  split; [reflexivity|]. split; [reflexivity|]. split; [exact Hp|].
  split; [exact H1|]. split; [exact H2|]. split; [exact H3|].
  destruct (@analyzeServerFile_injections
              (js "plain.ts") plainFile [] [] cn km Hcn Hkm)
    as (_ & Hsnd & Ha & Hn & Hfst & _).
  rewrite (surjective_pairing (analyzeServerFile _ _ _ _)).
  rewrite Hsnd, Hfst by reflexivity.
  rewrite Hp. cbn [flat_map].
  rewrite (Ha _ _ H1), (Hn _ H2), (Ha _ _ H3).
  vm_compute in Hcn. inversion Hcn; subst cn. reflexivity.
Defined.

(** C4 as stated fails on [optionalFile]: the interaction of the first
    parameter is labelled [inyecta], so no interaction labelled [injects]
    is appended; and the second parameter, whose type annotation follows a
    question mark and a colon, appends no interaction at all. *)
Lemma analyzeServerFile_injections_counterexample :
  snd (analyzeServerFile (js "job.ts") optionalFile [] []) =
    [{| from := js "Job"; to := js "OrdersService"; ilabel := js "inyecta";
        isAsync := None |}] /\
  ~ In {| from := js "Job"; to := js "OrdersService"; ilabel := js "injects";
          isAsync := None |}
       (snd (analyzeServerFile (js "job.ts") optionalFile [] [])) /\
  ~ (exists i, In i (snd (analyzeServerFile (js "job.ts") optionalFile [] [])) /\
               to i = js "Config").
Proof.
  assert (E : snd (analyzeServerFile (js "job.ts") optionalFile [] []) =
              [{| from := js "Job"; to := js "OrdersService";
                  ilabel := js "inyecta"; isAsync := None |}])
    by (vm_compute; reflexivity).
  rewrite E. split; [reflexivity|]. split.
  - intros [H|[]]. vm_compute in H. discriminate H.
  - intros (i & [H|[]] & Hto). subst i. vm_compute in Hto. discriminate Hto.
Qed.

Lemma inyecta_not_usa : label_inyecta <> label_usa.
Proof. intros E. vm_compute in E. discriminate E. Qed.

(** C5, as amended: in a server file with an exported class, when the raw
    text holds the substring [PrismaService] (anywhere: nothing is asked of
    the text around it) the extractor appends, after the constructor's
    interactions, one interaction from the class to PrismaService labelled
    [usa]; when the text does not hold the substring the appended
    interactions are the constructor's only, and none of them is that
    interaction. *)
Theorem analyzeServerFile_prisma filePath content components interactions cn :
  exec classNameRe content = Some cn ->
  let name := group1 cn in
  let uses := {| from := name; to := js "PrismaService"; ilabel := js "usa";
                 isAsync := None |} in
  let after := snd (analyzeServerFile filePath content components interactions) in
  exists fromConstructor,
    Forall (fun i => ilabel i = js "inyecta") fromConstructor /\
    ~ In uses fromConstructor /\
    ((exists pre post, content = pre ++ js "PrismaService" ++ post) ->
     after = interactions ++ fromConstructor ++ [uses]) /\
    (~ (exists pre post, content = pre ++ js "PrismaService" ++ post) ->
     after = interactions ++ fromConstructor).
Proof.
  intros Hc name uses after. subst after.
  rewrite (@analyzeServerFile_interactions filePath content components
                                           interactions cn Hc).
  exists (constructorInteractions name content).
  pose proof (constructorInteractions_inyecta name content) as Hl.
  split; [|split; [|split]].
  - revert Hl. apply Forall_impl. intros i [_ H]. exact H.
  - intros Hin. rewrite Forall_forall in Hl. apply Hl in Hin as [_ Hin].
    apply inyecta_not_usa. symmetry. exact Hin.
  - intros Hs. apply includes_spec in Hs. unfold prismaInteractions.
    fold name. rewrite Hs. reflexivity.
  - intros Hs. unfold prismaInteractions.
    destruct (includes (js "PrismaService") content) eqn:E.
    + exfalso. apply Hs. apply includes_spec. exact E.
    + rewrite app_nil_r. reflexivity.
Qed.

Lemma analyzeServerFile_prisma_witness :
  exists cn,
    exec classNameRe commentFile = Some cn /\
    (exists pre post, commentFile = pre ++ js "PrismaService" ++ post) /\
    exists fromConstructor,
      snd (analyzeServerFile (js "mailer.ts") commentFile [] []) =
      fromConstructor ++ [prismaInteraction (js "Mailer")].
Proof.
  destruct (exec classNameRe commentFile) as [cn|] eqn:Hcn;
    [|vm_compute in Hcn; discriminate].
  exists cn. split; [reflexivity|].
  assert (Hs : exists pre post, commentFile = pre ++ js "PrismaService" ++ post).
  { exists (js "// does not talk to "), (LF ++ js "export class Mailer {}").
    reflexivity. }
  split; [exact Hs|].
  destruct (@analyzeServerFile_prisma (js "mailer.ts") commentFile [] [] cn Hcn)
    as (fc & _ & _ & H & _).
  exists fc. rewrite (H Hs).
  vm_compute in Hcn. inversion Hcn; subst cn. reflexivity.
Defined.

(** C5 as stated fails on [commentFile]: the text holds the substring, and
    the one interaction appended is labelled [usa], not [uses]. *)
Lemma analyzeServerFile_prisma_counterexample :
  includes (js "PrismaService") commentFile = true /\
  snd (analyzeServerFile (js "mailer.ts") commentFile [] []) =
    [{| from := js "Mailer"; to := js "PrismaService"; ilabel := js "usa";
        isAsync := None |}] /\
  ~ In {| from := js "Mailer"; to := js "PrismaService"; ilabel := js "uses";
          isAsync := None |}
       (snd (analyzeServerFile (js "mailer.ts") commentFile [] [])).
Proof.
  split; [vm_compute; reflexivity|].
  assert (E : snd (analyzeServerFile (js "mailer.ts") commentFile [] []) =
              [{| from := js "Mailer"; to := js "PrismaService";
                  ilabel := js "usa"; isAsync := None |}])
    by (vm_compute; reflexivity).
  rewrite E. split; [reflexivity|].
  intros [H|[]]. vm_compute in H. discriminate H.
Qed.

(** ** The renderer *)

Lemma map_get_In k m : map_get k m <> None <-> In k (map_keys m).
Proof.
  induction m as [|[k' v] m IH]; simpl.
  - split; [congruence | contradiction].
  - destruct (str_eqb k' k) eqn:E.
    + apply str_eqb_eq in E. split; [auto | discriminate].
    + apply str_eqb_neq in E. rewrite IH. split; [auto | intros [H|H]; congruence].
Qed.

Lemma map_has_In k m : map_has k m = true <-> In k (map_keys m).
Proof.
  rewrite <- map_get_In. unfold map_has.
  destruct (map_get k m); split; congruence.
Qed.

Lemma fold_emitInteraction components interactions acc :
  fold_left (emitInteraction components) interactions acc =
  acc ++ List.concat (map (renderedEdge components) interactions).
Proof.
  revert acc; induction interactions as [|i l IH]; intros acc;
    cbn [fold_left map List.concat].
  - rewrite app_nil_r; reflexivity.
  - rewrite IH. unfold emitInteraction, renderedEdge, map_has.
    destruct (map_get (from i) components), (map_get (to i) components);
      cbn [andb app]; rewrite <- ?app_assoc; reflexivity.
Qed.

Lemma fold_emitNavigation comps acc :
  fold_left emitNavigation comps acc =
  acc ++ List.concat (map navLine (filter isClientPage comps)).
Proof.
  revert acc; induction comps as [|c l IH]; intros acc;
    cbn [fold_left filter].
  - rewrite app_nil_r; reflexivity.
  - rewrite IH. unfold emitNavigation, isClientPage.
    destruct (CompType_eqb (type c) ClientPage);
      cbn [map List.concat]; rewrite <- ?app_assoc; reflexivity.
Qed.

Lemma generateMermaidCode_sections components interactions :
  generateMermaidCode components interactions =
  declarations components
  ++ List.concat (map (renderedEdge components) interactions)
  ++ List.concat (map navLine (filter isClientPage (map_values components)))
  ++ styles components.
Proof.
  unfold generateMermaidCode, declarations.
  rewrite fold_emitNavigation, fold_emitInteraction.
  rewrite <- !app_assoc. reflexivity.
Qed.

Lemma edgeLine_nonempty inter : edgeLine inter <> [].
Proof. unfold edgeLine. intros E. vm_compute in E. discriminate E. Qed.

(** C1: the edges of the output are the interactions of the log, in
    order, each contributing its edge line if both its source and its
    target are keys of the component map and no text at all otherwise.
    The renderer is a total function: it has no error outcome. *)
Theorem generateMermaidCode_edges components interactions :
  generateMermaidCode components interactions =
    declarations components
    ++ List.concat (map (renderedEdge components) interactions)
    ++ List.concat (map navLine (filter isClientPage (map_values components)))
    ++ styles components /\
  forall inter,
    (In (from inter) (map_keys components) /\
     In (to inter) (map_keys components) <->
     renderedEdge components inter = edgeLine inter) /\
    (~ (In (from inter) (map_keys components) /\
        In (to inter) (map_keys components)) <->
     renderedEdge components inter = []).
Proof.
  split; [apply generateMermaidCode_sections|].
  intros inter. unfold renderedEdge.
  rewrite <- !map_has_In.
  pose proof (@edgeLine_nonempty inter) as Hne.
  destruct (map_has (from inter) components), (map_has (to inter) components);
    simpl; repeat split; try tauto; try congruence;
    intuition congruence.
Qed.

(** A log with one edge between present components and one dangling
    edge: the first is rendered, the second leaves no trace. *)
Lemma generateMermaidCode_edges_witness :
  generateMermaidCode
    [(js "A", serviceComponent (js "A") (js "a.ts"))]
    [injectInteraction (js "A") (js "A");
     injectInteraction (js "A") (js "Missing")] =
  declarations [(js "A", serviceComponent (js "A") (js "a.ts"))]
  ++ (js "  A -->|inyecta| A" ++ LF)
  ++ styles [(js "A", serviceComponent (js "A") (js "a.ts"))].
Proof.
  destruct (@generateMermaidCode_edges
              [(js "A", serviceComponent (js "A") (js "a.ts"))]
              [injectInteraction (js "A") (js "A");
               injectInteraction (js "A") (js "Missing")]) as [-> _].
  apply f_equal. vm_compute. reflexivity.
Defined.

Lemma navLine_inj p q : navLine p = navLine q -> id p = id q.
Proof.
  unfold navLine. intros E. apply app_inv_head in E.
  apply app_inv_tail in E. exact E.
Qed.

Lemma keyed_ids m : keyed m -> NoDup (map id (map_values m)).
Proof.
  intros [Hk Hid]. unfold map_values, map_keys in *.
  replace (map id (map snd m)) with (map fst m); [exact Hk|].
  induction Hid as [|kv m E _ IH]; simpl; [reflexivity|].
  rewrite E. f_equal. apply IH. inversion Hk; assumption.
Qed.

(** Components with distinct identifiers get distinct navigation lines. *)
Lemma navLines_NoDup comps :
  NoDup (map id comps) ->
  NoDup (map navLine (filter isClientPage comps)).
Proof.
  induction comps as [|a l IH]; simpl; intros H; [constructor|].
  inversion H as [|? ? Hn Hl]; subst.
  destruct (isClientPage a); simpl; [|apply IH; exact Hl].
  constructor; [|apply IH; exact Hl].
  intros Hin. apply in_map_iff in Hin as (b & Eb & Hb).
  apply navLine_inj in Eb. apply filter_In in Hb as [Hb _].
  apply Hn. rewrite <- Eb. apply in_map. exact Hb.
Qed.

(** C8: after the edges of the log, the renderer emits the implicit edge
    [User -->|navega a| page] (User navigates to) once for every component
    of kind ClientPage of the map, in the map's order: every such page has
    its line, and in a map keyed by the components' identifiers, as the
    script builds it, no line comes twice.  These lines depend on the
    components only: the interaction log has no part in them, so an
    interaction that already connects User to the page, which renders to
    the very same line when it carries the same label, is emitted as
    well. *)
Theorem generateMermaidCode_navigation components interactions :
  let pages := filter (fun comp => CompType_eqb (type comp) ClientPage)
                      (map_values components) in
  let line := fun page => js "  User -->|navega a| " ++ id page ++ LF in
  generateMermaidCode components interactions =
    declarations components
    ++ List.concat (map (renderedEdge components) interactions)
    ++ List.concat (map line pages)
    ++ styles components /\
  (keyed components -> NoDup (map line pages)) /\
  forall page,
    In page (map_values components) -> type page = ClientPage ->
    In (line page) (map line pages) /\
    forall inter,
      from inter = js "User" -> to inter = id page ->
      ilabel inter = js "navega a" -> isAsync inter = None ->
      edgeLine inter = line page.
Proof.
  intros pages line.
  split; [apply generateMermaidCode_sections|]. split.
  - intros Hk. apply navLines_NoDup. apply keyed_ids. exact Hk.
  - intros page Hin Ht. split.
    + apply in_map. apply filter_In. split; [exact Hin|].
      rewrite Ht. reflexivity.
    + intros inter Hf Hto Hl Ha. unfold edgeLine, arrow.
      rewrite Hf, Hto, Hl, Ha. reflexivity.
Qed.

Lemma generateMermaidCode_navigation_witness :
  exists before after,
    generateMermaidCode
      [(js "Page(home)", homePage); (js "User", userComponent)]
      [{| from := js "User"; to := js "Page(home)"; ilabel := js "navega a";
          isAsync := None |}] =
    before ++ (js "  User -->|navega a| Page(home)" ++ LF)
           ++ (js "  User -->|navega a| Page(home)" ++ LF) ++ after.
Proof.
  destruct (@generateMermaidCode_navigation
              [(js "Page(home)", homePage); (js "User", userComponent)]
              [{| from := js "User"; to := js "Page(home)";
                  ilabel := js "navega a"; isAsync := None |}]) as [-> _].
  exists (declarations [(js "Page(home)", homePage); (js "User", userComponent)]).
  exists (styles [(js "Page(home)", homePage); (js "User", userComponent)]).
  apply f_equal. vm_compute. reflexivity.
Defined.

(** In a server file whose exported class is named PrismaService the
    substring check of line 98 fires on the class's own declaration: the
    log ends with an interaction from PrismaService to PrismaService
    labelled [usa]. *)
Lemma analyzeServerFile_prisma_self filePath content components interactions cn :
  exec classNameRe content = Some cn ->
  group1 cn = js "PrismaService" ->
  exists before,
    snd (analyzeServerFile filePath content components interactions) =
    before ++ [prismaSelfInteraction].
Proof.
  intros Hc Hn.
  rewrite (@analyzeServerFile_interactions filePath content components
                                           interactions cn Hc).
  apply classNameRe_sound in Hc as (Hc & _ & _).
  assert (Hi : includes (js "PrismaService") content = true).
  { rewrite Hc, Hn, app_assoc. apply includes_middle. }
  unfold prismaInteractions. rewrite Hi, Hn.
  exists (interactions ++ constructorInteractions (js "PrismaService") content).
  rewrite <- app_assoc. reflexivity.
Qed.

(** ** Synthesis of the external actors *)

Lemma map_get_set_same k v m : map_get k (map_set k v m) = Some v.
Proof.
  induction m as [|[k' v'] m IH]; simpl.
  - rewrite str_eqb_refl; reflexivity.
  - destruct (str_eqb k' k) eqn:E; simpl.
    + rewrite str_eqb_refl; reflexivity.
    + rewrite E. exact IH.
Qed.

Lemma map_get_set_other k k' v m :
  k <> k' -> map_get k' (map_set k v m) = map_get k' m.
Proof.
  intros Hne. induction m as [|[k0 v0] m IH]; simpl.
  - apply str_eqb_neq in Hne. rewrite Hne; reflexivity.
  - destruct (str_eqb k0 k) eqn:E; simpl.
    + apply str_eqb_eq in E; subst k0.
      apply str_eqb_neq in Hne. rewrite Hne; reflexivity.
    + destruct (str_eqb k0 k'); [reflexivity | exact IH].
Qed.

(** The synthesis invariant: whatever the map held, it holds User and
    Database afterwards, also when the function throws. *)
Lemma addExternalComponents_actors components :
  map_get (js "User") (fst (addExternalComponents components)) =
    Some userComponent /\
  map_get (js "Database") (fst (addExternalComponents components)) =
    Some databaseComponent.
Proof.
  unfold addExternalComponents.
  destruct (map_has (js "PrismaService") _); cbn [fst]; split.
  all: try apply map_get_set_same.
  all: rewrite map_get_set_other;
    [apply map_get_set_same | intros E; vm_compute in E; discriminate E].
Qed.

(** With PrismaService among the keys, line 135 is reached and the
    unbound name [interactions] is evaluated; without it, the function
    returns, and nothing is appended to any log either way. *)
Lemma addExternalComponents_outcome components :
  snd (addExternalComponents components) =
  if map_has (js "PrismaService") components
  then Throw (ReferenceError (js "interactions"))
  else Normal tt.
Proof.
  unfold addExternalComponents, map_has.
  rewrite !map_get_set_other by (intros E; vm_compute in E; discriminate E).
  destruct (map_get (js "PrismaService") components); reflexivity.
Qed.

(** C2, at the input on which the code departs from it: the component
    map holds PrismaService, the two actors are added, and the function
    then throws a ReferenceError on the name [interactions] instead of
    appending the interaction from PrismaService to Database; the log
    [main] holds is the one the extraction left, and [main] on the file is
    rejected with that error before it renders anything. *)
Theorem addExternalComponents_prisma_throws :
  map_keys (fst prismaModel) = [js "PrismaService"] /\
  map_keys (fst (addExternalComponents (fst prismaModel))) =
    [js "PrismaService"; js "User"; js "Database"] /\
  snd (addExternalComponents (fst prismaModel)) =
    Throw (ReferenceError (js "interactions")) /\
  snd prismaModel = [prismaSelfInteraction] /\
  main relativeBelow exampleClientDir [(js "prisma.service.ts", prismaFile)] [] =
    Throw (ReferenceError (js "interactions")).
Proof. vm_compute. repeat split. Qed.

(** ** The client extractor *)

(** The pattern of the page file name matches at the end of the text
    only, and only after a slash. *)
Lemma replace_pageRe_suffix dir :
  replace pageRe [] (dir ++ js "/page.tsx") = dir.
Proof.
  unfold replace.
  destruct (exec pageRe (dir ++ js "/page.tsx")) as [m|] eqn:E.
  - apply exec_sound in E as (w & Hs & M). unfold pageRe in M.
    apply Matches_Seq_inv in M as (w1 & w2 & cap1 & -> & M1 & M2).
    apply Matches_Lit_inv in M1 as [-> ->].
    apply Matches_End_inv in M2 as (-> & Hr & _).
    rewrite Hr in Hs |- *. rewrite !app_nil_r in Hs. rewrite !app_nil_r.
    apply app_inv_tail in Hs. symmetry. exact Hs.
  - exfalso. revert E.
    replace (dir ++ js "/page.tsx") with (dir ++ (js "/page.tsx" ++ []) ++ [])
      by (rewrite !app_nil_r; reflexivity).
    eapply exec_complete. unfold pageRe. econstructor.
    + apply Matches_Lit.
    + constructor.
Qed.

Lemma replace_pageRe_other s :
  (forall dir, s <> dir ++ js "/page.tsx") -> replace pageRe [] s = s.
Proof.
  intros Hno. unfold replace.
  destruct (exec pageRe s) as [m|] eqn:E; [|reflexivity].
  exfalso. apply exec_sound in E as (w & Hs & M). unfold pageRe in M.
  apply Matches_Seq_inv in M as (w1 & w2 & cap1 & -> & M1 & M2).
  apply Matches_Lit_inv in M1 as [-> ->].
  apply Matches_End_inv in M2 as (-> & Hr & _).
  rewrite Hr in Hs. rewrite !app_nil_r in Hs.
  exact (Hno _ Hs).
Qed.

(** What the client extractor does to the component map: one [set], of
    the page component under the page's identifier. *)
Lemma analyzeClientFile_component
      path_relative clientDir filePath content components interactions :
  let relativePath := relativePathOf path_relative clientDir filePath in
  fst (analyzeClientFile path_relative clientDir filePath content
                         components interactions) =
  map_set (pageId relativePath)
          {| id := js "Page(" ++ orElse relativePath (js "/") ++ js ")";
             type := ClientPage;
             label := js "/" ++ relativePath;
             filePath := filePath; subgraph := SgClient |}
          components.
Proof.
  intros relativePath. unfold analyzeClientFile. cbn [fst].
  fold relativePath. unfold pageComponent, pageId.
  destruct relativePath; reflexivity.
Qed.

(** The identifier of a page below a directory of the client tree: the
    separators are normalised and the file name is dropped. *)
Lemma relativePathOf_nested path_relative clientDir filePath dir :
  replaceAllChar BACKSLASH SLASH (path_relative clientDir filePath) =
    dir ++ js "/page.tsx" ->
  relativePathOf path_relative clientDir filePath = dir.
Proof.
  intros H. unfold relativePathOf. rewrite H. apply replace_pageRe_suffix.
Qed.

(** C7, at the input on which the code departs from it: for the page
    file at the root of the client tree [path.relative] returns
    [page.tsx]; no slash precedes the file name, the pattern does not
    match, and the page gets the identifier [Page(page.tsx)] and the label
    [/page.tsx] instead of the site root's. *)
Theorem analyzeClientFile_root_page
        path_relative clientDir filePath content components interactions :
  path_relative clientDir filePath = js "page.tsx" ->
  fst (analyzeClientFile path_relative clientDir filePath content
                         components interactions) =
  map_set (js "Page(page.tsx)")
          {| id := js "Page(page.tsx)"; type := ClientPage;
             label := js "/page.tsx"; filePath := filePath;
             subgraph := SgClient |}
          components.
Proof.
  intros H. rewrite analyzeClientFile_component.
  unfold relativePathOf. rewrite H. reflexivity.
Qed.

Lemma analyzeClientFile_root_page_witness :
  relativeBelow exampleClientDir (js "/project/client/app/page.tsx") =
    js "page.tsx" /\
  fst (analyzeClientFile relativeBelow exampleClientDir
                         (js "/project/client/app/page.tsx") [] [] []) =
  [(js "Page(page.tsx)",
    {| id := js "Page(page.tsx)"; type := ClientPage;
       label := js "/page.tsx";
       filePath := js "/project/client/app/page.tsx";
       subgraph := SgClient |})] /\
  map_keys
    (fst (analyzeClientFile relativeBelow exampleClientDir
                            (js "/project/client/app/dashboard/page.tsx")
                            [] [] [])) =
  [js "Page(dashboard)"].
Proof.
  split; [vm_compute; reflexivity|]. split.
  - rewrite (@analyzeClientFile_root_page relativeBelow exampleClientDir
               (js "/project/client/app/page.tsx") [] [] [])
      by (vm_compute; reflexivity).
    reflexivity.
  - vm_compute. reflexivity.
Defined.

(** ** The maps the script builds are keyed by the identifiers *)

Lemma map_keys_set k v m :
  map_keys (map_set k v m) =
  if map_has k m then map_keys m else map_keys m ++ [k].
Proof.
  unfold map_has. induction m as [|[k' v'] m IH]; simpl; [reflexivity|].
  destruct (str_eqb k' k) eqn:E; simpl.
  - apply str_eqb_eq in E. subst k'. reflexivity.
  - rewrite IH. destruct (map_get k m); reflexivity.
Qed.

Lemma keyed_nil : keyed [].
Proof. split; constructor. Qed.

Lemma keyed_set k v m : id v = k -> keyed m -> keyed (map_set k v m).
Proof.
  intros Hid [Hk Hf]. split.
  - rewrite map_keys_set. destruct (map_has k m) eqn:E; [exact Hk|].
    apply NoDup_rev in Hk. rewrite <- (rev_involutive (map_keys m ++ [k])).
    apply NoDup_rev. rewrite rev_app_distr. simpl. constructor; [|exact Hk].
    rewrite <- in_rev. intros Hin. apply map_has_In in Hin. congruence.
  - clear Hk. induction Hf as [|[k' v'] m E Hm IH]; simpl.
    + constructor; [exact Hid | constructor].
    + destruct (str_eqb k' k); constructor; auto.
Qed.

Lemma keyed_analyzeServerFile filePath content components interactions :
  keyed components ->
  keyed (fst (analyzeServerFile filePath content components interactions)).
Proof.
  intros H. unfold analyzeServerFile.
  destruct (exec classNameRe content); [|exact H]. cbn [fst].
  destruct (exec controllerRe content), (exec injectableRe content),
    (exec gatewayRe content); try exact H; apply keyed_set; auto.
Qed.

Lemma keyed_analyzeClientFile
      path_relative clientDir filePath content components interactions :
  keyed components ->
  keyed (fst (analyzeClientFile path_relative clientDir filePath content
                                components interactions)).
Proof.
  intros H. unfold analyzeClientFile. cbn [fst]. apply keyed_set; auto.
Qed.

Lemma keyed_addExternalComponents components :
  keyed components -> keyed (fst (addExternalComponents components)).
Proof.
  intros H. unfold addExternalComponents.
  destruct (map_has _ _); cbn [fst]; repeat apply keyed_set; auto.
Qed.

(** The map [main] hands to the renderer is keyed. *)
Lemma keyed_main_components path_relative clientDir serverFiles clientFiles :
  keyed (fst (addExternalComponents
                (fst (fold_left (clientStep path_relative clientDir) clientFiles
                                (fold_left serverStep serverFiles ([], [])))))).
Proof.
  apply keyed_addExternalComponents.
  assert (Hs : forall files m, keyed (fst m) ->
                               keyed (fst (fold_left serverStep files m))).
  { induction files as [|f l IH]; intros m H; simpl; [exact H|].
    apply IH. apply keyed_analyzeServerFile. exact H. }
  assert (Hc : forall files m,
             keyed (fst m) ->
             keyed (fst (fold_left (clientStep path_relative clientDir) files m))).
  { induction files as [|f l IH]; intros m H; simpl; [exact H|].
    apply IH. apply keyed_analyzeClientFile. exact H. }
  apply Hc. apply Hs. apply keyed_nil.
Qed.

(** * Further properties of the script *)

(** ** The server extractor and the model it is run on *)


Lemma map_set_idem k v m : map_set k v (map_set k v m) = map_set k v m.
Proof.
  induction m as [|[k' v'] m IH]; simpl.
  - rewrite str_eqb_refl. reflexivity.
  - destruct (str_eqb k' k) eqn:E; simpl.
    + rewrite str_eqb_refl. reflexivity.
    + rewrite E, IH. reflexivity.
Qed.

(** A server file adds to any model what it adds to the empty one. *)
Lemma analyzeServerFile_contribution filePath content components interactions :
  analyzeServerFile filePath content components interactions =
  (upsertAll (serverEntries (filePath, content)) components,
   interactions ++ serverLog (filePath, content)).
Proof.
  unfold serverEntries, serverLog, upsertAll. cbn [fst snd].
  destruct (exec classNameRe content) as [cn|] eqn:Hc.
  - rewrite (surjective_pairing (analyzeServerFile filePath content components
                                                   interactions)).
    rewrite !(@analyzeServerFile_interactions _ content _ _ cn Hc).
    f_equal. unfold analyzeServerFile. rewrite Hc. cbn [fst].
    destruct (exec controllerRe content), (exec injectableRe content),
      (exec gatewayRe content); reflexivity.
  - unfold analyzeServerFile. rewrite Hc. cbn [fst snd].
    rewrite app_nil_r. reflexivity.
Qed.

Lemma serverEntries_shape f :
  serverEntries f = [] \/
  exists cn comp,
    exec classNameRe (snd f) = Some cn /\
    serverEntries f = [(group1 cn, comp)] /\
    id comp = group1 cn /\ filePath comp = fst f /\ subgraph comp = SgServer.
Proof.
  unfold serverEntries, analyzeServerFile.
  destruct (exec classNameRe (snd f)) as [cn|]; [|left; reflexivity].
  cbn [fst].
  destruct (exec controllerRe (snd f)), (exec injectableRe (snd f)),
    (exec gatewayRe (snd f)); try (left; reflexivity);
    right; eexists; eexists; (split; [reflexivity|]);
    (split; [reflexivity|]); repeat split.
Qed.

Lemma serverLog_from f :
  Forall (fun i => exists cn, exec classNameRe (snd f) = Some cn /\
                              from i = group1 cn) (serverLog f).
Proof.
  unfold serverLog.
  destruct (exec classNameRe (snd f)) as [cn|] eqn:Hc.
  - rewrite (@analyzeServerFile_interactions _ _ _ _ cn Hc). cbn [app].
    apply Forall_app. split.
    + pose proof (constructorInteractions_inyecta (group1 cn) (snd f)) as H.
      revert H. apply Forall_impl. intros i [H _]. eauto.
    + unfold prismaInteractions.
      destruct (includes (js "PrismaService") (snd f)); repeat constructor.
      eauto.
  - unfold analyzeServerFile. rewrite Hc. constructor.
Qed.

(** X1: a server file changes the model in the same way whatever the model
    holds: it sets the entries (none or one, a Server component stored
    under the class identifier with the file's path) and appends the
    interactions that it yields on the empty model.  So the log before
    stays the front of the log after, and every interaction added starts
    at the class of the file. *)
Theorem analyzeServerFile_frame path content components interactions :
  let entries := fst (analyzeServerFile path content [] []) in
  let added := snd (analyzeServerFile path content [] []) in
  analyzeServerFile path content components interactions =
    (upsertAll entries components, interactions ++ added) /\
  (entries = [] \/
   exists cn comp,
     exec classNameRe content = Some cn /\
     entries = [(group1 cn, comp)] /\
     id comp = group1 cn /\ filePath comp = path /\
     subgraph comp = SgServer) /\
  Forall (fun i => exists cn, exec classNameRe content = Some cn /\
                              from i = group1 cn) added.
Proof.
  intros entries added. split; [|split].
  - apply analyzeServerFile_contribution.
  - apply (serverEntries_shape (path, content)).
  - apply (serverLog_from (path, content)).
Qed.

(** X2: last write wins.  When a server file yields a component, the map
    afterwards answers the class identifier with that component; if the
    identifier was a key already, the keys and their order are as before
    (the older component is replaced where it stood, with no trace), and
    otherwise the identifier is the new last key; every other key keeps
    its component. *)
Theorem analyzeServerFile_last_write_wins
        filePath content components interactions key comp :
  fst (analyzeServerFile filePath content [] []) = [(key, comp)] ->
  let after := fst (analyzeServerFile filePath content components interactions) in
  map_get key after = Some comp /\
  (In key (map_keys components) -> map_keys after = map_keys components) /\
  (~ In key (map_keys components) ->
   map_keys after = map_keys components ++ [key]) /\
  forall other, other <> key -> map_get other after = map_get other components.
Proof.
  intros H after. subst after.
  rewrite analyzeServerFile_contribution. unfold serverEntries. cbn [fst snd].
  rewrite H. unfold upsertAll. cbn [fold_left fst snd].
  split; [apply map_get_set_same|]. split; [|split].
  - intros Hin. rewrite map_keys_set.
    apply map_has_In in Hin. rewrite Hin. reflexivity.
  - intros Hin. rewrite map_keys_set.
    destruct (map_has key components) eqn:E; [|reflexivity].
    apply map_has_In in E. contradiction.
  - intros other Hne. apply map_get_set_other. congruence.
Qed.

Lemma analyzeServerFile_last_write_wins_witness :
  exists comp older,
    fst (analyzeServerFile (js "b/orders.controller.ts") ordersControllerFile [] []) =
      [(js "OrdersController", comp)] /\
    filePath comp = js "b/orders.controller.ts" /\
    filePath older = js "a/orders.service.ts" /\
    let after :=
      fst (analyzeServerFile (js "b/orders.controller.ts") ordersControllerFile
             [(js "OrdersController", older); (js "Z", older)] []) in
    map_get (js "OrdersController") after = Some comp /\
    map_keys after = [js "OrdersController"; js "Z"] /\
    map_get (js "Z") after = Some older.
Proof.
  destruct (fst (analyzeServerFile (js "b/orders.controller.ts")
                                   ordersControllerFile [] []))
    as [|[key comp] rest] eqn:E; [vm_compute in E; discriminate E|].
  assert (Hk : key = js "OrdersController" /\ rest = [] /\
               filePath comp = js "b/orders.controller.ts").
  { vm_compute in E. inversion E. repeat split. }
  destruct Hk as (-> & -> & Hf).
  exists comp, (serviceComponent (js "OrdersController") (js "a/orders.service.ts")).
  split; [reflexivity|]. split; [exact Hf|]. split; [reflexivity|].
  destruct (@analyzeServerFile_last_write_wins
              (js "b/orders.controller.ts") ordersControllerFile
              [(js "OrdersController",
                serviceComponent (js "OrdersController") (js "a/orders.service.ts"));
               (js "Z",
                serviceComponent (js "OrdersController") (js "a/orders.service.ts"))]
              [] (js "OrdersController") comp E) as (H1 & H2 & _ & H4).
  split; [exact H1|]. split.
  - apply H2. left. reflexivity.
  - rewrite H4; [reflexivity|]. intros C. vm_compute in C. discriminate C.
Defined.

(** X3: nothing is deduplicated, and nothing is merged.  Analysing the
    same file a second time leaves the component map as the first time
    left it and appends the file's interactions once more. *)
Theorem analyzeServerFile_twice filePath content components interactions :
  let once := analyzeServerFile filePath content components interactions in
  analyzeServerFile filePath content (fst once) (snd once) =
  (fst once,
   interactions ++ snd (analyzeServerFile filePath content [] [])
                ++ snd (analyzeServerFile filePath content [] [])).
Proof.
  intros once. subst once.
  rewrite (analyzeServerFile_contribution filePath content components interactions).
  cbn [fst snd]. rewrite analyzeServerFile_contribution.
  unfold serverLog. cbn [fst snd]. rewrite <- app_assoc. f_equal.
  destruct (serverEntries_shape (filePath, content)) as [E | (cn & comp & _ & E & _)];
    rewrite E; unfold upsertAll; cbn [fold_left fst snd];
    [reflexivity | apply map_set_idem].
Qed.

(** ** The order of the server files *)

Lemma upsertAll_app es1 es2 m :
  upsertAll (es1 ++ es2) m = upsertAll es2 (upsertAll es1 m).
Proof. unfold upsertAll. apply fold_left_app. Qed.

(** The model after the server files: the entries they yield, set in
    order, and their interactions, appended in order. *)
Lemma fold_serverStep files : forall m,
  fold_left serverStep files m =
  (upsertAll (flat_map serverEntries files) (fst m),
   snd m ++ flat_map serverLog files).
Proof.
  induction files as [|f files IH]; intros m; cbn [fold_left flat_map].
  - rewrite app_nil_r. destruct m; reflexivity.
  - rewrite IH. unfold serverStep.
    rewrite analyzeServerFile_contribution. cbn [fst snd].
    rewrite upsertAll_app, <- app_assoc.
    destruct f; reflexivity.
Qed.





Lemma upsertAll_keys es : forall m k,
  In k (map_keys (upsertAll es m)) <-> In k (map_keys m) \/ In k (map fst es).
Proof.
  induction es as [|[k0 v0] es IH]; intros m k; cbn [map].
  - simpl. tauto.
  - unfold upsertAll. cbn [fold_left fst snd]. fold (upsertAll es (map_set k0 v0 m)).
    rewrite IH, map_keys_set.
    destruct (map_has k0 m) eqn:E.
    + apply map_has_In in E. simpl. split; [tauto|].
      intros [H|[H|H]]; auto. subst k. auto.
    + rewrite in_app_iff. simpl. tauto.
Qed.



(** ** The lookups and the client extractor *)

Lemma findFirst_Some p l c :
  findFirst p l = Some c ->
  exists before after,
    l = before ++ c :: after /\ p c = true /\
    Forall (fun x => p x = false) before.
Proof.
  induction l as [|a l IH]; simpl; [discriminate|].
  destruct (p a) eqn:E; intros H.
  - inversion H; subst a. exists [], l. auto.
  - destruct (IH H) as (before & after & -> & Hc & Hb).
    exists (a :: before), after. auto.
Qed.

Lemma findFirst_None p l :
  findFirst p l = None <-> Forall (fun x => p x = false) l.
Proof.
  induction l as [|a l IH]; simpl.
  - split; [constructor | reflexivity].
  - destruct (p a) eqn:E.
    + split; [discriminate|]. intros H. inversion H. congruence.
    + rewrite IH. split; [constructor; assumption|].
      intros H. inversion H. assumption.
Qed.

Lemma CompType_eqb_eq a b : CompType_eqb a b = true <-> a = b.
Proof. destruct a, b; simpl; split; congruence. Qed.

(** X5: [findControllerByRoute] answers with the first component, in the
    order of insertion, that is a Controller and whose label holds the
    text [/api/] followed by the route anywhere in it (so a route that is
    only the beginning of a controller's route finds that controller);
    it answers with nothing exactly when the map has no such component. *)
Theorem findControllerByRoute_first route components :
  (forall comp,
      findControllerByRoute route components = Some comp ->
      type comp = Controller /\
      (exists pre post, label comp = pre ++ (js "/api/" ++ route) ++ post) /\
      exists before after,
        map_values components = before ++ comp :: after /\
        Forall (fun c => type c = Controller ->
                         forall pre post,
                           label c <> pre ++ (js "/api/" ++ route) ++ post)
               before) /\
  (findControllerByRoute route components = None <->
   forall c, In c (map_values components) -> type c = Controller ->
             forall pre post, label c <> pre ++ (js "/api/" ++ route) ++ post).
Proof.
  unfold findControllerByRoute.
  assert (Hp : forall c,
             CompType_eqb (type c) Controller &&
             includes (js "/api/" ++ route) (label c) = false <->
             (type c = Controller ->
              forall pre post, label c <> pre ++ (js "/api/" ++ route) ++ post)).
  { intros c. rewrite andb_false_iff. split.
    - intros [H|H] Ht pre post E.
      + apply CompType_eqb_eq in Ht. congruence.
      + assert (includes (js "/api/" ++ route) (label c) = true)
          by (apply includes_spec; eauto).
        congruence.
    - intros H. destruct (CompType_eqb (type c) Controller) eqn:Et; [|auto].
      right. apply CompType_eqb_eq in Et.
      destruct (includes (js "/api/" ++ route) (label c)) eqn:Ei; [|reflexivity].
      apply includes_spec in Ei as (pre & post & Ei).
      exfalso. exact (H Et pre post Ei). }
  split.
  - intros comp H.
    apply findFirst_Some in H as (before & after & Hv & Hc & Hb).
    apply andb_true_iff in Hc as [Ht Hi].
    apply CompType_eqb_eq in Ht. apply includes_spec in Hi.
    split; [exact Ht|]. split; [exact Hi|].
    exists before, after. split; [exact Hv|].
    revert Hb. apply Forall_impl. intros c. apply Hp.
  - rewrite findFirst_None, Forall_forall. split.
    + intros H c Hin. apply Hp. apply H. exact Hin.
    + intros H c Hin. apply Hp. apply H. exact Hin.
Qed.

Lemma keyed_get m c :
  keyed m -> In c (map_values m) -> map_get (id c) m = Some c.
Proof.
  intros [Hk Hf] Hin. induction m as [|[k v] m IH]; [contradiction|].
  simpl in *. inversion Hk as [|? ? Hn Hk']; subst.
  inversion Hf as [|? ? Hv Hf']; subst. simpl in Hv.
  destruct Hin as [->|Hin].
  - rewrite Hv, str_eqb_refl. reflexivity.
  - destruct (str_eqb k (id c)) eqn:E.
    + exfalso. apply str_eqb_eq in E. apply Hn. rewrite E.
      clear - Hin Hf'. unfold map_values in Hin.
      apply in_map_iff in Hin as ([k' v'] & Ec & Hin). simpl in Ec. subst v'.
      rewrite Forall_forall in Hf'. pose proof (Hf' _ Hin) as E'.
      simpl in E'. rewrite E'.
      apply in_map_iff. exists (k', c). auto.
    + apply IH; assumption.
Qed.

Lemma map_values_set k v m c :
  In c (map_values (map_set k v m)) -> c = v \/ In c (map_values m).
Proof.
  induction m as [|[k' v'] m IH]; simpl.
  - intros [<-|[]]. auto.
  - destruct (str_eqb k' k); simpl.
    + intros [<-|H]; auto.
    + intros [<-|H]; auto. destruct (IH H); auto.
Qed.






Lemma findControllerByRoute_Some route components comp :
  findControllerByRoute route components = Some comp ->
  In comp (map_values components) /\ type comp = Controller /\
  includes (js "/api/" ++ route) (label comp) = true.
Proof.
  unfold findControllerByRoute. intros E.
  apply findFirst_Some in E as (b & a & Hv & Hc & _).
  apply andb_true_iff in Hc as [Ht Hi]. apply CompType_eqb_eq in Ht.
  rewrite Hv, in_app_iff. simpl. auto.
Qed.

Lemma findComponentByType_Some t components comp :
  findComponentByType t components = Some comp ->
  In comp (map_values components) /\ type comp = t.
Proof.
  unfold findComponentByType. intros E.
  apply findFirst_Some in E as (b & a & Hv & Hc & _).
  apply CompType_eqb_eq in Hc. rewrite Hv, in_app_iff. simpl. auto.
Qed.

(** The interactions of the fetch loop, lines 112-118: one for each
    capture whose first segment finds a controller, and no other. *)
Lemma fold_pushFetch page components captures : forall acc,
  exists added,
    fold_left (pushFetch page components) captures acc = acc ++ added /\
    Forall (fun i => exists capture comp,
                In capture captures /\
                findControllerByRoute (hd [] (split SLASH capture)) components
                = Some comp /\
                i = fetchInteraction page comp (hd [] (split SLASH capture)))
           added /\
    forall capture comp,
      In capture captures ->
      findControllerByRoute (hd [] (split SLASH capture)) components
      = Some comp ->
      In (fetchInteraction page comp (hd [] (split SLASH capture))) added.
Proof.
  induction captures as [|cap captures IH]; intros acc; cbn [fold_left].
  - exists []. rewrite app_nil_r. split; [reflexivity|].
    split; [constructor | intros ? ? []].
  - unfold pushFetch at 2.
    destruct (findControllerByRoute (hd [] (split SLASH cap)) components)
      as [target|] eqn:E.
    + destruct (IH (acc ++
                    [{| from := page; to := id target;
                        ilabel := js "GET /api/" ++ hd [] (split SLASH cap);
                        isAsync := None |}])) as (added & -> & Ha & Hall).
      exists (fetchInteraction page target (hd [] (split SLASH cap)) :: added).
      rewrite <- app_assoc. split; [reflexivity|]. split.
      * constructor.
        -- exists cap, target. simpl. auto.
        -- revert Ha. apply Forall_impl.
           intros i (c & comp & Hin & Hf & Hi). exists c, comp. simpl. auto.
      * intros c comp [<-|Hin] Hf.
        -- rewrite E in Hf. inversion Hf. left. reflexivity.
        -- right. eapply Hall; eassumption.
    + destruct (IH acc) as (added & -> & Ha & Hall).
      exists added. split; [reflexivity|]. split.
      * revert Ha. apply Forall_impl.
        intros i (c & comp & Hin & Hf & Hi). exists c, comp. simpl. auto.
      * intros c comp [<-|Hin] Hf; [congruence|].
        eapply Hall; eassumption.
Qed.

(** What the client extractor appends: the interactions of the fetch loop
    on the map with the page in it, then the socket interaction when the
    text holds [useSocket()] and the map a gateway. *)
Lemma analyzeClientFile_added
      path_relative clientDir filePath content components interactions :
  let page := pageId (relativePathOf path_relative clientDir filePath) in
  let after := analyzeClientFile path_relative clientDir filePath content
                                 components interactions in
  exists fetches sockets,
    snd after = interactions ++ fetches ++ sockets /\
    Forall (fun i => exists capture comp,
                In capture (matchAll fetchRe content) /\
                findControllerByRoute (hd [] (split SLASH capture)) (fst after)
                = Some comp /\
                i = fetchInteraction page comp (hd [] (split SLASH capture)))
           fetches /\
    (forall capture comp,
        In capture (matchAll fetchRe content) ->
        findControllerByRoute (hd [] (split SLASH capture)) (fst after)
        = Some comp ->
        In (fetchInteraction page comp (hd [] (split SLASH capture))) fetches) /\
    sockets =
      (if includes (js "useSocket()") content
       then match findComponentByType Gateway (fst after) with
            | Some gateway => [socketInteraction page gateway]
            | None => []
            end
       else []).
Proof.
  intros page after. subst after. unfold analyzeClientFile. cbn [fst snd].
  fold page.
  set (comps := map_set page _ components).
  destruct (fold_pushFetch page comps (matchAll fetchRe content) interactions)
    as (fetches & -> & Ha & Hall).
  exists fetches.
  destruct (includes (js "useSocket()") content).
  - destruct (findComponentByType Gateway comps) as [gateway|].
    + exists [socketInteraction page gateway].
      rewrite <- app_assoc. auto.
    + exists []. rewrite app_nil_r. auto.
  - exists []. rewrite app_nil_r. auto.
Qed.



(** X7: extraction makes no second pass.  On a map without any Controller
    and any Gateway (an empty one, or one the server files have not been
    analysed into yet), a client file adds its page and no interaction,
    whatever it fetches and whether or not it uses the socket. *)
Theorem analyzeClientFile_single_pass
        path_relative clientDir filePath content components interactions :
  Forall (fun comp => type comp <> Controller /\ type comp <> Gateway)
         (map_values components) ->
  snd (analyzeClientFile path_relative clientDir filePath content
                         components interactions) = interactions.
Proof.
  intros Hno.
  assert (Hafter : forall c,
             In c (map_values
                     (fst (analyzeClientFile path_relative clientDir filePath
                             content components interactions))) ->
             type c <> Controller /\ type c <> Gateway).
  { intros c Hin. unfold analyzeClientFile in Hin. cbn [fst] in Hin.
    apply map_values_set in Hin as [->|Hin].
    - cbn [type pageComponent]. split; discriminate.
    - rewrite Forall_forall in Hno. exact (Hno c Hin). }
  destruct (analyzeClientFile_added path_relative clientDir filePath content
                                    components interactions)
    as (fetches & sockets & Hs & Ha & _ & Hsock).
  rewrite Hs.
  assert (fetches = []) as ->.
  { destruct fetches as [|i fetches]; [reflexivity|].
    exfalso. apply Forall_inv in Ha. destruct Ha as (capture & c & _ & Hf & _).
    apply findControllerByRoute_Some in Hf as (Hin & Ht & _).
    destruct (Hafter c Hin) as [H _]. contradiction. }
  assert (sockets = []) as ->.
  { rewrite Hsock. destruct (includes (js "useSocket()") content); [|reflexivity].
    destruct (findComponentByType Gateway _) as [g|] eqn:Eg; [|reflexivity].
    exfalso. apply findComponentByType_Some in Eg as (Hin & Ht).
    destruct (Hafter g Hin) as [_ H]. contradiction. }
  apply app_nil_r.
Qed.

(** A page that fetches and uses the socket. *)
Lemma analyzeClientFile_single_pass_witness :
  matchAll fetchRe (dashboardFile ++ js " useSocket()") = [js "orders/123"] /\
  includes (js "useSocket()") (dashboardFile ++ js " useSocket()") = true /\
  snd (analyzeClientFile relativeBelow exampleClientDir
         (js "/project/client/app/dashboard/page.tsx")
         (dashboardFile ++ js " useSocket()")
         [(js "User", userComponent)] []) = [].
Proof.
  split; [vm_compute; reflexivity|]. split; [vm_compute; reflexivity|].
  apply analyzeClientFile_single_pass.
  repeat constructor; discriminate.
Defined.

(** ** The clusters of the rendered text *)

Lemma Subgraph_eqb_eq a b : Subgraph_eqb a b = true <-> a = b.
Proof. destruct a, b; simpl; split; congruence. Qed.

Lemma bucket_push g' line b g :
  bucket (push g' line b) g =
  if Subgraph_eqb g' g then bucket b g ++ [line] else bucket b g.
Proof. destruct g', g; reflexivity. Qed.

(** After the first loop over the components each array of [subgraphs]
    holds the declaration lines of its cluster's members. *)
Lemma buckets_members comps g : forall b,
  bucket (fold_left (fun b comp => push (subgraph comp) (declLine comp) b)
                    comps b) g =
  bucket b g ++ map declLine
                    (filter (fun comp => Subgraph_eqb (subgraph comp) g) comps).
Proof.
  induction comps as [|c comps IH]; intros b; cbn [fold_left filter].
  - rewrite app_nil_r. reflexivity.
  - rewrite IH, bucket_push.
    destruct (Subgraph_eqb (subgraph c) g); cbn [map];
      rewrite <- ?app_assoc; reflexivity.
Qed.

Lemma emitSubgraph_block components acc g :
  emitSubgraph
    (fold_left (fun b comp => push (subgraph comp) (declLine comp) b)
               (map_values components) emptyBuckets) acc g =
  acc ++ clusterBlock components g.
Proof.
  unfold emitSubgraph, clusterBlock, members.
  rewrite buckets_members.
  replace (bucket emptyBuckets g) with (@nil jsstring) by (destruct g; reflexivity).
  cbn [app].
  destruct (filter _ (map_values components)) as [|c l]; cbn [map].
  - rewrite app_nil_r. reflexivity.
  - rewrite <- !app_assoc. reflexivity.
Qed.

Lemma declarations_blocks components :
  declarations components =
  js "graph TD" ++ LF
  ++ clusterBlock components SgUser ++ clusterBlock components SgClient
  ++ clusterBlock components SgServer ++ clusterBlock components SgDatabase
  ++ LF ++ js "  %% Interacciones" ++ LF.
Proof.
  unfold declarations, subgraphOrder. cbn [fold_left].
  rewrite !emitSubgraph_block, <- !app_assoc. reflexivity.
Qed.

(** X8: the rendered text opens with one block per cluster that has
    members, in the fixed order User, Client, Server, Database, whatever
    the order of the map; a block lists the declarations of the cluster's
    members in the order of the map, and a cluster without members has no
    block.  Every component is a member of the cluster it names and of no
    other. *)
Theorem generateMermaidCode_clusters components interactions :
  generateMermaidCode components interactions =
    js "graph TD" ++ LF
    ++ clusterBlock components SgUser ++ clusterBlock components SgClient
    ++ clusterBlock components SgServer ++ clusterBlock components SgDatabase
    ++ (LF ++ js "  %% Interacciones" ++ LF)
    ++ List.concat (map (renderedEdge components) interactions)
    ++ List.concat (map navLine (filter isClientPage (map_values components)))
    ++ styles components /\
  (forall g, members components g = [] -> clusterBlock components g = []) /\
  (forall g comp rest,
      members components g = comp :: rest ->
      clusterBlock components g =
      js "  subgraph " ++ subgraphName g ++ LF
      ++ join LF (map (fun c => js "    " ++ id c ++ js "[" ++ DQUOTE ++ label c
                                   ++ DQUOTE ++ js "]") (comp :: rest))
      ++ LF ++ js "  end" ++ LF) /\
  (forall comp g, In comp (members components g) <->
                  In comp (map_values components) /\ subgraph comp = g).
Proof.
  split; [|split; [|split]].
  - rewrite generateMermaidCode_sections, declarations_blocks.
    rewrite <- !app_assoc. reflexivity.
  - intros g H. unfold clusterBlock. rewrite H. reflexivity.
  - intros g comp rest H. unfold clusterBlock. rewrite H. reflexivity.
  - intros comp g. unfold members. rewrite filter_In, Subgraph_eqb_eq.
    reflexivity.
Qed.

Lemma join_contains sep x l :
  In x l -> exists a b, join sep l = a ++ x ++ b.
Proof.
  induction l as [|y l IH]; [contradiction|].
  intros [->|Hin].
  - destruct l as [|z l].
    + exists [], []. simpl. rewrite app_nil_r. reflexivity.
    + exists [], (sep ++ join sep (z :: l)). reflexivity.
  - destruct l as [|z l]; [contradiction|].
    destruct (IH Hin) as (a & b & E).
    exists (y ++ sep ++ a), b.
    change (join sep (y :: z :: l)) with (y ++ sep ++ join sep (z :: l)).
    rewrite E, <- !app_assoc. reflexivity.
Qed.

Lemma occurs_app_l (x s t : jsstring) :
  (exists a b, s = a ++ x ++ b) -> exists a b, s ++ t = a ++ x ++ b.
Proof.
  intros (a & b & ->). exists a, (b ++ t). rewrite <- !app_assoc. reflexivity.
Qed.

Lemma occurs_app_r (x s t : jsstring) :
  (exists a b, t = a ++ x ++ b) -> exists a b, s ++ t = a ++ x ++ b.
Proof.
  intros (a & b & ->). exists (s ++ a), b. rewrite <- !app_assoc. reflexivity.
Qed.

Lemma declLine_occurs components interactions comp :
  In comp (map_values components) ->
  exists before after,
    generateMermaidCode components interactions =
    before ++ declLine comp ++ after.
Proof.
  intros Hin.
  assert (Hm : In comp (members components (subgraph comp))).
  { unfold members. apply filter_In. split; [exact Hin|].
    apply Subgraph_eqb_eq. reflexivity. }
  assert (Hb : exists a b, clusterBlock components (subgraph comp) =
                           a ++ declLine comp ++ b).
  { unfold clusterBlock.
    destruct (members components (subgraph comp)) as [|c l] eqn:E;
      [contradiction|].
    apply occurs_app_r, occurs_app_r, occurs_app_r, occurs_app_l.
    apply join_contains. apply in_map. exact Hm. }
  rewrite generateMermaidCode_sections, declarations_blocks.
  apply occurs_app_l, occurs_app_r, occurs_app_r.
  destruct (subgraph comp).
  - apply occurs_app_r, occurs_app_l. exact Hb.
  - apply occurs_app_r, occurs_app_r, occurs_app_l. exact Hb.
  - apply occurs_app_r, occurs_app_r, occurs_app_r, occurs_app_l. exact Hb.
  - apply occurs_app_l. exact Hb.
Qed.

(** X9: no component is left out of the rendered text.  Every component of
    the map has its declaration line [id["label"]] in the text, and its
    identifier is among the identifiers of the class line of its cluster,
    with which the text ends. *)
Theorem generateMermaidCode_declares components interactions comp :
  In comp (map_values components) ->
  (exists before after,
      generateMermaidCode components interactions =
      before ++ (js "    " ++ id comp ++ js "[" ++ DQUOTE ++ label comp
                    ++ DQUOTE ++ js "]") ++ after) /\
  (exists before after,
      classMembers components (subgraph comp) = before ++ id comp ++ after) /\
  exists before,
    generateMermaidCode components interactions =
    before
    ++ js "  class " ++ classMembers components SgClient ++ js " client" ++ LF
    ++ js "  class " ++ classMembers components SgServer ++ js " server" ++ LF
    ++ js "  class " ++ classMembers components SgDatabase ++ js " db" ++ LF
    ++ js "  class " ++ classMembers components SgUser ++ js " user" ++ LF
    ++ js "  ".
Proof.
  intros Hin. split; [|split].
  - apply declLine_occurs. exact Hin.
  - unfold classMembers. apply join_contains.
    apply in_map. apply filter_In. split; [exact Hin|].
    apply Subgraph_eqb_eq. reflexivity.
  - rewrite generateMermaidCode_sections. unfold styles.
    exists (declarations components
            ++ List.concat (map (renderedEdge components) interactions)
            ++ List.concat (map navLine (filter isClientPage (map_values components)))
            ++ LF ++ js "  %% Estilos" ++ LF
            ++ js "  classDef client fill:#233,stroke:#39c,stroke-width:2px,color:#fff" ++ LF
            ++ js "  classDef server fill:#333,stroke:#f90,stroke-width:2px,color:#fff" ++ LF
            ++ js "  classDef db fill:#444,stroke:#ccc,stroke-width:2px,color:#fff" ++ LF
            ++ js "  classDef user fill:#111,stroke:#999,stroke-width:2px,color:#fff" ++ LF
            ++ LF).
    rewrite <- !app_assoc. reflexivity.
Qed.

Lemma generateMermaidCode_declares_witness :
  In homePage (map_values [(js "Page(home)", homePage); (js "User", userComponent)]) /\
  exists before after,
    generateMermaidCode [(js "Page(home)", homePage); (js "User", userComponent)] [] =
    before ++ (js "    Page(home)[" ++ DQUOTE ++ js "/home" ++ DQUOTE ++ js "]")
           ++ after.
Proof.
  assert (H : In homePage (map_values [(js "Page(home)", homePage);
                                       (js "User", userComponent)]))
    by (left; reflexivity).
  split; [exact H|].
  destruct (@generateMermaidCode_declares
              [(js "Page(home)", homePage); (js "User", userComponent)] []
              homePage H) as (H1 & _).
  exact H1.
Defined.

(** ** Synthesis and the whole run *)

Lemma map_get_In_values k m c : map_get k m = Some c -> In c (map_values m).
Proof.
  induction m as [|[k' v] m IH]; simpl; [discriminate|].
  destruct (str_eqb k' k); [intros H; inversion H; auto | auto].
Qed.

(** X10: the synthesis overwrites.  Whatever the map holds, also a
    component that a source file yielded under the identifier User or
    Database, afterwards these two identifiers answer with the synthesized
    actors; every other identifier keeps its component, no key is removed,
    and a keyed map stays keyed.  This holds as well when the function
    goes on to throw. *)
Theorem addExternalComponents_overwrites components :
  let after := fst (addExternalComponents components) in
  map_get (js "User") after = Some userComponent /\
  map_get (js "Database") after = Some databaseComponent /\
  (forall k, k <> js "User" -> k <> js "Database" ->
             map_get k after = map_get k components) /\
  (forall k, In k (map_keys after) <->
             In k (map_keys components) \/ k = js "User" \/ k = js "Database") /\
  (keyed components -> keyed after).
Proof.
  intros after. subst after.
  destruct (addExternalComponents_actors components) as [Hu Hd].
  split; [exact Hu|]. split; [exact Hd|].
  assert (E : fst (addExternalComponents components) =
              map_set (js "Database") databaseComponent
                      (map_set (js "User") userComponent components)).
  { unfold addExternalComponents. destruct (map_has _ _); reflexivity. }
  split; [|split].
  - intros k H1 H2. rewrite E, !map_get_set_other; congruence.
  - intros k. rewrite E.
    change (map_set (js "Database") databaseComponent
              (map_set (js "User") userComponent components))
      with (upsertAll [(js "User", userComponent);
                       (js "Database", databaseComponent)] components).
    rewrite upsertAll_keys. simpl. intuition auto.
  - apply keyed_addExternalComponents.
Qed.

Lemma pageId_not_prisma relativePath : pageId relativePath <> js "PrismaService".
Proof.
  unfold pageId. intros E.
  assert (H : nth_error (js "Page(" ++ orElse relativePath (js "/") ++ js ")") 1 =
              nth_error (js "PrismaService") 1) by (rewrite E; reflexivity).
  vm_compute in H. discriminate H.
Qed.

Lemma fold_clientStep_keys path_relative clientDir files : forall m k,
  In k (map_keys (fst (fold_left (clientStep path_relative clientDir) files m))) <->
  In k (map_keys (fst m)) \/
  exists f, In f files /\
            k = pageId (relativePathOf path_relative clientDir (fst f)).
Proof.
  induction files as [|f files IH]; intros m k; cbn [fold_left].
  - split; [auto | intros [H|(f & [] & _)]; exact H].
  - rewrite IH. unfold clientStep. unfold analyzeClientFile. cbn [fst].
    rewrite map_keys_set.
    set (page := pageId (relativePathOf path_relative clientDir (fst f))).
    split.
    + intros [H|(f' & Hin & E)].
      * destruct (map_has page (fst m)); [auto|].
        apply in_app_iff in H as [H|[H|[]]]; [auto|].
        right. exists f. split; [left; reflexivity | symmetry; exact H].
      * right. exists f'. split; [right; exact Hin | exact E].
    + intros [H|(f' & [->|Hin] & E)].
      * left. destruct (map_has page (fst m)); [exact H|].
        apply in_app_iff. auto.
      * left. fold page in E. subst k.
        destruct (map_has page (fst m)) eqn:Eh.
        -- apply map_has_In. exact Eh.
        -- apply in_app_iff. right. left. reflexivity.
      * right. exists f'. auto.
Qed.

(** The keys of the model [main] hands to the synthesis. *)
Lemma prisma_key_of_model path_relative clientDir serverFiles clientFiles :
  map_has (js "PrismaService")
          (fst (fold_left (clientStep path_relative clientDir) clientFiles
                          (fold_left serverStep serverFiles ([], [])))) = true <->
  In (js "PrismaService") (map fst (flat_map serverEntries serverFiles)).
Proof.
  rewrite map_has_In, fold_clientStep_keys, fold_serverStep. cbn [fst].
  rewrite upsertAll_keys. simpl. split.
  - intros [[[]|H]|(f & _ & E)]; [exact H|].
    exfalso. symmetry in E. exact (pageId_not_prisma E).
  - auto.
Qed.

(** The client files only append to the log. *)
Lemma fold_clientStep_log path_relative clientDir files : forall m,
  exists added,
    snd (fold_left (clientStep path_relative clientDir) files m) =
    snd m ++ added.
Proof.
  induction files as [|f files IH]; intros m; cbn [fold_left].
  - exists []. rewrite app_nil_r. reflexivity.
  - destruct (IH (clientStep path_relative clientDir m f)) as (added & ->).
    unfold clientStep.
    destruct (analyzeClientFile_added path_relative clientDir (fst f) (snd f)
                                      (fst m) (snd m))
      as (fetches & sockets & -> & _).
    exists ((fetches ++ sockets) ++ added). rewrite <- !app_assoc. reflexivity.
Qed.

(** C10, where the code departs from it.  Whenever the component
    PrismaService is in the model the extraction leaves, the log holds the
    interaction from PrismaService to PrismaService labelled [usa] (the
    substring check fired on the class's own declaration), and both its
    endpoints are keys of the map after the synthesis, so the renderer
    would emit the self-loop line for it; but the synthesis throws the
    ReferenceError of line 135 on exactly these models, so [main] is
    rejected and no text, with or without the self-loop, is rendered. *)
Theorem prisma_self_loop path_relative clientDir serverFiles clientFiles :
  let model := fold_left (clientStep path_relative clientDir) clientFiles
                         (fold_left serverStep serverFiles ([], [])) in
  In (js "PrismaService") (map_keys (fst model)) ->
  In prismaSelfInteraction (snd model) /\
  renderedEdge (fst (addExternalComponents (fst model))) prismaSelfInteraction =
    js "  PrismaService -->|usa| PrismaService" ++ LF /\
  main path_relative clientDir serverFiles clientFiles =
    Throw (ReferenceError (js "interactions")) /\
  forall text,
    main path_relative clientDir serverFiles clientFiles <> Normal text.
Proof.
  intros model Hkey.
  assert (Hhas : map_has (js "PrismaService") (fst model) = true)
    by (apply map_has_In; exact Hkey).
  assert (Hthrow : main path_relative clientDir serverFiles clientFiles =
                   Throw (ReferenceError (js "interactions"))).
  { unfold main. fold model.
    pose proof (addExternalComponents_outcome (fst model)) as Ho.
    destruct (addExternalComponents (fst model)) as [comps out].
    cbn [snd] in Ho. rewrite Hhas in Ho. subst out. reflexivity. }
  split; [|split; [|split; [exact Hthrow|]]].
  - apply prisma_key_of_model in Hhas.
    apply in_map_iff in Hhas as ([k v] & Ek & Hin). simpl in Ek. subst k.
    apply in_flat_map in Hin as (f & Hf & Hin).
    destruct (serverEntries_shape f) as [E0 | (cn & comp & Hc & E1 & _)].
    { rewrite E0 in Hin. contradiction. }
    rewrite E1 in Hin. destruct Hin as [Hin|[]].
    assert (Hn : group1 cn = js "PrismaService") by congruence.
    destruct (@analyzeServerFile_prisma_self (fst f) (snd f) [] [] cn Hc Hn)
      as (before & Hlog).
    destruct (fold_clientStep_log path_relative clientDir clientFiles
                (fold_left serverStep serverFiles ([], []))) as (added & Hs).
    subst model. rewrite Hs, fold_serverStep. cbn [snd app].
    apply in_app_iff. left. apply in_flat_map. exists f.
    split; [exact Hf|]. unfold serverLog. rewrite Hlog.
    apply in_app_iff. right. left. reflexivity.
  - assert (Hfst : fst (addExternalComponents (fst model)) =
                   map_set (js "Database") databaseComponent
                     (map_set (js "User") userComponent (fst model))).
    { unfold addExternalComponents.
      destruct (map_has _ (map_set _ _ _)); reflexivity. }
    rewrite Hfst. unfold renderedEdge, map_has in *.
    cbn [from to prismaSelfInteraction].
    rewrite !map_get_set_other
      by (intros E; vm_compute in E; discriminate E).
    destruct (map_get (js "PrismaService") (fst model));
      [reflexivity | discriminate Hhas].
  - intros text E. rewrite Hthrow in E. discriminate E.
Qed.

(** The failing input: the one server file
    [@Injectable() export class PrismaService {}]. *)
Lemma prisma_self_loop_witness :
  In (js "PrismaService")
     (map_keys (fst (fold_left (clientStep relativeBelow exampleClientDir) []
                       (fold_left serverStep [(js "prisma.service.ts", prismaFile)]
                                  ([], []))))) /\
  snd (fold_left (clientStep relativeBelow exampleClientDir) []
         (fold_left serverStep [(js "prisma.service.ts", prismaFile)] ([], []))) =
    [prismaSelfInteraction] /\
  main relativeBelow exampleClientDir [(js "prisma.service.ts", prismaFile)] [] =
    Throw (ReferenceError (js "interactions")).
Proof.
  assert (Hkey : In (js "PrismaService")
     (map_keys (fst (fold_left (clientStep relativeBelow exampleClientDir) []
                       (fold_left serverStep [(js "prisma.service.ts", prismaFile)]
                                  ([], []))))))
    by (vm_compute; left; reflexivity).
  split; [exact Hkey|]. split; [vm_compute; reflexivity|].
  exact (proj1 (proj2 (proj2
    (@prisma_self_loop relativeBelow exampleClientDir
       [(js "prisma.service.ts", prismaFile)] [] Hkey)))).
Defined.

(** X11: when the script fails.  [main] is rejected, with the
    ReferenceError on [interactions], exactly when some server file yields
    a component under the identifier PrismaService (its first exported
    class has that name and the file carries a marker); on every other
    input it yields a text.  The client files have no part in it. *)
Theorem main_rejected_iff path_relative clientDir serverFiles clientFiles :
  (In (js "PrismaService") (map fst (flat_map serverEntries serverFiles)) <->
   main path_relative clientDir serverFiles clientFiles =
   Throw (ReferenceError (js "interactions"))) /\
  (~ In (js "PrismaService") (map fst (flat_map serverEntries serverFiles)) <->
   exists text,
     main path_relative clientDir serverFiles clientFiles = Normal text) /\
  (In (js "PrismaService") (map fst (flat_map serverEntries serverFiles)) <->
   exists f cn,
     In f serverFiles /\ exec classNameRe (snd f) = Some cn /\
     group1 cn = js "PrismaService" /\
     (exec controllerRe (snd f) <> None \/
      includes (js "@Injectable()") (snd f) = true \/
      includes (js "@WebSocketGateway()") (snd f) = true)).
Proof.
  pose proof (prisma_key_of_model path_relative clientDir serverFiles clientFiles)
    as Hk.
  unfold main.
  set (m := fold_left (clientStep path_relative clientDir) clientFiles
                      (fold_left serverStep serverFiles ([], []))) in *.
  pose proof (addExternalComponents_outcome (fst m)) as Ho.
  destruct (addExternalComponents (fst m)) as [comps out]. cbn [snd] in Ho.
  destruct (map_has (js "PrismaService") (fst m)) eqn:E; subst out.
  - assert (Hin : In (js "PrismaService")
                     (map fst (flat_map serverEntries serverFiles)))
      by (apply Hk; reflexivity).
    split; [tauto|]. split.
    + split; [contradiction | intros [text H]; discriminate H].
    + clear - Hin. split; [|intros _; exact Hin]. intros _.
      apply in_map_iff in Hin as ([k v] & Ek & Hin). simpl in Ek. subst k.
      apply in_flat_map in Hin as (f & Hf & Hin).
      destruct (serverEntries_shape f) as [E0 | (cn & comp & Hc & E1 & _)].
      * rewrite E0 in Hin. contradiction.
      * rewrite E1 in Hin. destruct Hin as [Hin|[]]. inversion Hin.
        exists f, cn. split; [exact Hf|]. split; [exact Hc|].
        split; [first [assumption | reflexivity]|].
        unfold serverEntries, analyzeServerFile in E1. rewrite Hc in E1.
        cbn [fst] in E1.
        destruct (exec controllerRe (snd f)) eqn:Er; [left; discriminate|].
        destruct (exec injectableRe (snd f)) eqn:Es.
        { right. left. apply exec_Lit_includes. unfold injectableRe in Es.
          rewrite Es. discriminate. }
        destruct (exec gatewayRe (snd f)) eqn:Eg; [|discriminate E1].
        right. right. apply exec_Lit_includes. unfold gatewayRe in Eg.
        rewrite Eg. discriminate.
  - assert (Hin : ~ In (js "PrismaService")
                       (map fst (flat_map serverEntries serverFiles))).
    { intros H. apply Hk in H. congruence. }
    split; [split; [contradiction | discriminate]|]. split.
    + split; [eauto | intros _; exact Hin].
    + split; [contradiction|].
      intros (f & cn & Hf & Hc & Hn & Hm). exfalso. apply Hin.
      apply in_map_iff.
      assert (He : exists comp, serverEntries f = [(js "PrismaService", comp)]).
      { unfold serverEntries, analyzeServerFile. rewrite Hc. cbn [fst].
        rewrite Hn.
        destruct (exec controllerRe (snd f)) eqn:Er; [eexists; reflexivity|].
        destruct (exec injectableRe (snd f)) eqn:Es; [eexists; reflexivity|].
        destruct (exec gatewayRe (snd f)) eqn:Eg; [eexists; reflexivity|].
        exfalso. apply exec_Lit_None in Es, Eg.
        destruct Hm as [Hm|[Hm|Hm]]; congruence. }
      destruct He as (comp & He).
      exists (js "PrismaService", comp). split; [reflexivity|].
      apply in_flat_map. exists f. split; [exact Hf|].
      rewrite He. left. reflexivity.
Qed.

(** X12: what every text the script writes holds.  When [main] yields a
    text, it is the Markdown heading and a fenced block around a diagram
    that begins with [graph TD], and the diagram declares the two
    synthesized actors, User and Database, whatever the input files
    were. *)
Theorem main_text path_relative clientDir serverFiles clientFiles text :
  main path_relative clientDir serverFiles clientFiles = Normal text ->
  (exists diagram,
      text = js "# Diagrama de Arquitectura del Proyecto" ++ LF ++ LF
             ++ js "```mermaid" ++ LF ++ (js "graph TD" ++ LF ++ diagram)
             ++ LF ++ js "```") /\
  (exists before after,
      text = before ++ (js "    User[" ++ DQUOTE ++ label userComponent
                           ++ DQUOTE ++ js "]") ++ after) /\
  (exists before after,
      text = before ++ (js "    Database[" ++ DQUOTE ++ label databaseComponent
                           ++ DQUOTE ++ js "]") ++ after).
Proof.
  unfold main.
  set (m := fold_left (clientStep path_relative clientDir) clientFiles
                      (fold_left serverStep serverFiles ([], []))).
  pose proof (addExternalComponents_actors (fst m)) as [Hu Hd].
  destruct (addExternalComponents (fst m)) as [comps [[]|e]]; [|discriminate].
  cbn [fst] in Hu, Hd. intros H. inversion H. clear H.
  unfold markdownContent. split; [|split].
  - rewrite generateMermaidCode_sections, declarations_blocks.
    exists (clusterBlock comps SgUser ++ clusterBlock comps SgClient
            ++ clusterBlock comps SgServer ++ clusterBlock comps SgDatabase
            ++ LF ++ js "  %% Interacciones" ++ LF
            ++ List.concat (map (renderedEdge comps) (snd m))
            ++ List.concat (map navLine (filter isClientPage (map_values comps)))
            ++ styles comps).
    rewrite <- !app_assoc. reflexivity.
  - apply map_get_In_values in Hu.
    destruct (declLine_occurs comps (snd m) userComponent Hu) as (a & b & E).
    rewrite E.
    exists (js "# Diagrama de Arquitectura del Proyecto" ++ LF ++ LF
            ++ js "```mermaid" ++ LF ++ a), (b ++ LF ++ js "```").
    unfold declLine. cbn [id]. rewrite <- !app_assoc. reflexivity.
  - apply map_get_In_values in Hd.
    destruct (declLine_occurs comps (snd m) databaseComponent Hd) as (a & b & E).
    rewrite E.
    exists (js "# Diagrama de Arquitectura del Proyecto" ++ LF ++ LF
            ++ js "```mermaid" ++ LF ++ a), (b ++ LF ++ js "```").
    unfold declLine. cbn [id]. rewrite <- !app_assoc. reflexivity.
Qed.

(** ** The traversal *)

Lemma endsWith_spec suffix s :
  endsWith suffix s = true <-> exists stem, s = stem ++ suffix.
Proof.
  unfold endsWith. rewrite startsWith_spec. split.
  - intros [post H]. exists (rev post).
    rewrite <- (rev_involutive s), H, rev_app_distr, rev_involutive.
    reflexivity.
  - intros [stem ->]. exists (rev stem). apply rev_app_distr.
Qed.

Lemma includesName_In names name :
  includesName names name = true <-> In name names.
Proof.
  unfold includesName. rewrite existsb_exists. split.
  - intros (n & Hin & E). apply str_eqb_eq in E. subst n. exact Hin.
  - intros Hin. exists name. split; [exact Hin | apply str_eqb_refl].
Qed.

(** No name of [ignoreFiles] ends in [.ts] or [.tsx]: the test of that
    list on line 214 never turns a source file away. *)
Lemma ignoreFiles_no_source name :
  includesName ignoreFiles name = true ->
  endsWith (js ".ts") name || endsWith (js ".tsx") name = false.
Proof.
  intros H. apply includesName_In in H.
  destruct H as [<-|[<-|[<-|[]]]]; vm_compute; reflexivity.
Qed.

Lemma visit_Listed path_join entry : forall dir path,
  In path (visit path_join dir entry) <-> Listed path_join dir entry path.
Proof.
  induction entry as [name|name entries IH] using Entry_ind';
    intros dir path; cbn [visit entryName].
  - destruct (includesName ignoreDirs name) eqn:Ed.
    + apply includesName_In in Ed. split; [contradiction|].
      intros H. inversion H; subst. contradiction.
    + assert (Hd : ~ In name ignoreDirs).
      { intros H. apply includesName_In in H. congruence. }
      destruct (endsWith (js ".ts") name || endsWith (js ".tsx") name) eqn:Ee.
      * destruct (includesName ignoreFiles name) eqn:Ef.
        { apply ignoreFiles_no_source in Ef. congruence. }
        cbn [negb andb]. apply orb_true_iff in Ee.
        rewrite !endsWith_spec in Ee. split.
        -- intros [<-|[]]. constructor; assumption.
        -- intros H. inversion H; subst. left. reflexivity.
      * rewrite andb_false_r. split; [contradiction|].
        intros H. inversion H as [? ? _ He|]; subst.
        rewrite <- !endsWith_spec, <- orb_true_iff in He. congruence.
  - destruct (includesName ignoreDirs name) eqn:Ed.
    + apply includesName_In in Ed. split; [contradiction|].
      intros H. inversion H; subst. contradiction.
    + assert (Hd : ~ In name ignoreDirs).
      { intros H. apply includesName_In in H. congruence. }
      rewrite in_flat_map. rewrite Forall_forall in IH. split.
      * intros (e & Hin & Hp). apply IH in Hp; [|exact Hin].
        econstructor; eassumption.
      * intros H. inversion H; subst.
        eexists. split; [eassumption|]. apply IH; assumption.
Qed.

(** X13: what the traversal returns.  [getProjectFiles] returns exactly
    the joined paths of the files whose name ends in [.ts] or [.tsx] and
    that are reached from the directory through directories without an
    ignored name (node_modules, .next, dist, logs, public); nothing below
    an ignored directory is returned, at any depth, and the list of
    ignored file names has no effect, since none of its names has such an
    ending.  A directory with no entries yields no path. *)
Theorem getProjectFiles_listed path_join dir entries :
  (forall path,
      In path (getProjectFiles path_join dir entries) <->
      exists entry, In entry entries /\ Listed path_join dir entry path) /\
  getProjectFiles path_join dir [] = [] /\
  (forall name sub,
      In name ignoreDirs ->
      getProjectFiles path_join dir [Dir name sub] = []) /\
  (forall name,
      In name ignoreFiles ->
      getProjectFiles path_join dir [File name] = []).
Proof.
  split; [|split; [reflexivity|split]].
  - intros path. unfold getProjectFiles. rewrite in_flat_map.
    split; intros (e & Hin & H); exists e; (split; [exact Hin|]);
      apply visit_Listed; exact H.
  - intros name sub Hin. unfold getProjectFiles. cbn [flat_map visit entryName].
    apply includesName_In in Hin. rewrite Hin. reflexivity.
  - intros name Hin. unfold getProjectFiles. cbn [flat_map visit entryName].
    apply includesName_In in Hin.
    destruct (includesName ignoreDirs name); [reflexivity|].
    rewrite Hin. reflexivity.
Qed.

(** ** The page of a client file *)

Lemma replaceAllChar_none c d s : c <> d -> ~ In c (replaceAllChar c d s).
Proof.
  intros Hne. unfold replaceAllChar. rewrite in_map_iff.
  intros (x & E & _). destruct (N.eqb x c) eqn:Ex.
  - congruence.
  - apply N.eqb_neq in Ex. congruence.
Qed.

(** X14: the page of a client file.  The extractor normalises the
    relative path (every back-slash becomes a slash), drops a final
    [/page.tsx], and keeps the path whole when it does not end so; the
    result [p] holds no back-slash.  It stores, under the identifier
    [Page(p)] (or [Page(/)] for an empty [p]), a ClientPage component of
    the cluster Client with the label [/p] and the file's path.  Nothing
    else changes in the map: every other identifier keeps its component,
    and the new identifier is the last key unless it was a key before. *)
Theorem analyzeClientFile_page
        path_relative clientDir path content components interactions :
  let normalised :=
    replaceAllChar BACKSLASH SLASH (path_relative clientDir path) in
  let after := fst (analyzeClientFile path_relative clientDir path content
                                      components interactions) in
  exists p,
    (normalised = p ++ js "/page.tsx" \/
     (forall dir, normalised <> dir ++ js "/page.tsx") /\ p = normalised) /\
    ~ In BACKSLASH p /\
    let page := js "Page(" ++ orElse p (js "/") ++ js ")" in
    map_get page after =
      Some {| id := page; type := ClientPage; label := js "/" ++ p;
              filePath := path; subgraph := SgClient |} /\
    (forall k, k <> page -> map_get k after = map_get k components) /\
    map_keys after =
      (if map_has page components then map_keys components
       else map_keys components ++ [page]).
Proof.
  intros normalised after.
  assert (Hn : ~ In BACKSLASH normalised)
    by (apply replaceAllChar_none; discriminate).
  assert (Hp : exists p,
             relativePathOf path_relative clientDir path = p /\
             (normalised = p ++ js "/page.tsx" \/
              (forall dir, normalised <> dir ++ js "/page.tsx") /\ p = normalised)).
  { unfold relativePathOf. fold normalised.
    destruct (endsWith (js "/page.tsx") normalised) eqn:E.
    - apply endsWith_spec in E as [dir E]. exists dir. rewrite E.
      split; [apply replace_pageRe_suffix | left; reflexivity].
    - exists normalised.
      assert (H : forall dir, normalised <> dir ++ js "/page.tsx").
      { intros dir Hd.
        assert (endsWith (js "/page.tsx") normalised = true)
          by (apply endsWith_spec; eauto).
        congruence. }
      split; [apply replace_pageRe_other; exact H | right; auto]. }
  destruct Hp as (p & Hrel & Hp). exists p. split; [exact Hp|]. split.
  - destruct Hp as [E|[_ ->]]; [|exact Hn].
    intros Hin. apply Hn. rewrite E. apply in_app_iff. auto.
  - subst after. rewrite analyzeClientFile_component. cbn zeta. rewrite Hrel.
    unfold pageId. split; [apply map_get_set_same|]. split.
    + intros k Hk. apply map_get_set_other. congruence.
    + apply map_keys_set.
Qed.

Lemma main_text_witness :
  exists text,
    main relativeBelow exampleClientDir scenarioServer scenarioClient
    = Normal text /\
    exists diagram,
      text = js "# Diagrama de Arquitectura del Proyecto" ++ LF ++ LF
             ++ js "```mermaid" ++ LF ++ (js "graph TD" ++ LF ++ diagram)
             ++ LF ++ js "```".
Proof.
  destruct (main relativeBelow exampleClientDir scenarioServer scenarioClient)
    as [text|e] eqn:E.
  - exists text. split; [reflexivity|].
    exact (proj1 (@main_text relativeBelow exampleClientDir
                             scenarioServer scenarioClient text E)).
  - vm_compute in E. discriminate.
Defined.

(** ** The identifiers of the rendered map *)

Lemma map_get_In_pair k m c : map_get k m = Some c -> In (k, c) m.
Proof.
  induction m as [|[k' v'] m IH]; simpl; [discriminate|].
  destruct (str_eqb k' k) eqn:E.
  - apply str_eqb_eq in E. intros H. inversion H. subst. auto.
  - auto.
Qed.

(** X15: the identifiers of the map [main] renders.  Whatever the files,
    every component of the map the renderer receives is stored under its
    own identifier and is the component found under it, and no two
    components of the map share an identifier; [User] and [Database] are
    among them. *)
Theorem main_components_unique
        path_relative clientDir serverFiles clientFiles :
  let components :=
    fst (addExternalComponents
           (fst (fold_left (clientStep path_relative clientDir) clientFiles
                           (fold_left serverStep serverFiles ([], []))))) in
  NoDup (map id (map_values components)) /\
  (forall k comp, map_get k components = Some comp -> id comp = k) /\
  (forall comp, In comp (map_values components) ->
                map_get (id comp) components = Some comp) /\
  map_get (js "User") components = Some userComponent /\
  map_get (js "Database") components = Some databaseComponent.
Proof.
  intros components.
  pose proof (keyed_main_components path_relative clientDir
                                    serverFiles clientFiles) as Hk.
  fold components in Hk.
  split; [apply keyed_ids; exact Hk|]. split; [|split].
  - intros k comp Hg. apply map_get_In_pair in Hg.
    destruct Hk as [_ Hf]. rewrite Forall_forall in Hf.
    exact (Hf _ Hg).
  - intros comp Hin. apply keyed_get; assumption.
  - apply addExternalComponents_actors.
Qed.
